(** * nullstack-input-mask: the mask transducer and the keystroke gate

    A shallow embedding of [src/InputMask.tsx]: the function [applyMask]
    and the [oninput] handler of the [InputMask] component, together with
    the part of the JavaScript semantics they rely on (string indexing,
    [RegExp.prototype.test], [new RegExp(pattern, flags)]).

    The loop of [applyMask] is a structural recursion over the mask that
    threads the local variables and the RegExp objects; a call returns a
    completion, normal or abrupt.  The properties come in this order:
    the loop body, the loop, the claims C1 to C10 of the specification,
    and what holds of the output, of prefixes of the raw input, of the
    gate and of a second application outside the two defects found: the
    absent character that line 170 tests as the string ["undefined"], and
    the flags that line 130 drops. *)

From stdpp Require Import base option list gmap strings.
From Stdlib Require Import NArith Ascii Lia.

Open Scope N_scope.
Open Scope nat_scope.

(** ** JavaScript values *)

(** A JavaScript string is a sequence of UTF-16 code units.  The program
    only compares code units and uses them as property names, so a code
    unit is a number. *)
Abbreviation jsstring := (list N).

(** String literals of the source text. *)
Definition js (s : string) : jsstring :=
  N_of_ascii <$> String.list_ascii_of_string s.

(** [value[index]]: the code unit at [index], or [undefined] ([None]). *)
Definition at_index (value : jsstring) (index : nat) : option N := value !! index.

(** [ToString] of the result of [value[index]]: a one-unit string, or the
    nine letters of [undefined]. *)
Definition ToString (inputChar : option N) : jsstring :=
  match inputChar with
  | Some c => [c]
  | None => js "undefined"
  end.

(** Errors and abrupt completion. *)
Inductive JSError := TypeError.

Inductive Completion (A : Type) :=
  | Normal (a : A)
  | Throw (e : JSError).
Arguments Normal {A} a.
Arguments Throw {A} e.

Definition bind {A B} (c : Completion A) (k : A → Completion B) : Completion B :=
  match c with
  | Normal a => k a
  | Throw e => Throw e
  end.

Definition cmap {A B} (f : A → B) (c : Completion A) : Completion B :=
  bind c (λ a, Normal (f a)).

Notation "'let!' x := c 'in' k" := (bind c (λ x, k))
  (at level 10, x pattern, c at level 100, k at level 200).

(** ** Regular expressions *)

Module RegExp.

Record Flags := mkFlags {
  global : bool;
  ignoreCase : bool;
  multiline : bool;
  dotAll : bool;
  unicode : bool;
  sticky : bool
}.

Definition no_flags : Flags := mkFlags false false false false false false.
(** The flags string ["g"]. *)
Definition g : Flags := mkFlags true false false false false false.
(** The flags string ["i"]. *)
Definition i_flag : Flags := mkFlags false true false false false false.

(** What a compiled pattern does at one index of a string: the end index
    of the match that starts there, or failure. *)
Definition Matcher := jsstring → nat → option nat.

(** A pattern text, kept as the matcher it compiles to under the flags
    that change what it matches: [i], [m], [s] and [u], in this order. *)
Definition Pattern := bool → bool → bool → bool → Matcher.

Definition compile (src : Pattern) (fl : Flags) : Matcher :=
  src (ignoreCase fl) (multiline fl) (dotAll fl) (unicode fl).

(** A RegExp object: its pattern text, its flags and [lastIndex], the
    mutable property that [test] reads and writes under the [g] and [y]
    flags. *)
Record t := mk {
  source : Pattern;
  flags : Flags;
  lastIndex : nat
}.

Definition set_lastIndex (n : nat) (R : t) : t :=
  mk (source R) (flags R) n.

(** The first index of [candidates] at which the matcher succeeds. *)
Fixpoint first_match (m : Matcher) (str : jsstring) (candidates : list nat) : option nat :=
  match candidates with
  | [] => None
  | index :: rest =>
      match m str index with
      | Some e => Some e
      | None => first_match m str rest
      end
  end.

(** [test] and [exec] keep state in [lastIndex] under [g] or [y]. *)
Definition stateful (R : t) : bool := global (flags R) || sticky (flags R).

(** The indices RegExpBuiltinExec tries, in order: from [lastIndex] under
    [g] or [y] and from 0 otherwise; that one index under [y], every
    index up to the length of the string otherwise; none when the start
    is beyond the length.  The strings this program tests hold no
    surrogate pair, so the search advances by one code unit whatever the
    [u] flag says. *)
Definition candidates (R : t) (str : jsstring) : list nat :=
  let start := if stateful R then lastIndex R else 0 in
  if sticky (flags R)
  then (if start <=? length str then [start] else [])
  else seq start (S (length str) - start).

(** RegExpBuiltinExec: the end index of the first match among the
    candidates; under [g] or [y] it leaves that index, or 0 after a
    failure, in [lastIndex]. *)
Definition exec (R : t) (str : jsstring) : option nat * t :=
  match first_match (compile (source R) (flags R)) str (candidates R str) with
  | Some e => (Some e, if stateful R then set_lastIndex e R else R)
  | None => (None, if stateful R then set_lastIndex 0 R else R)
  end.

(** [R.test(inputChar)]: the argument goes through [ToString]. *)
Definition test (R : t) (inputChar : option N) : bool * t :=
  let '(r, R') := exec R (ToString inputChar) in (bool_decide (is_Some r), R').

(** The pattern of [new RegExp(undefined, ...)], [(?:)]: the empty match
    everywhere. *)
Definition empty_source : Pattern := λ _ _ _ _ _ index, Some index.

(** [new RegExp(pattern, flags)] with [pattern] a RegExp object or
    [undefined] and [flags] given: the pattern text of [pattern] under
    the new flags, [lastIndex] 0.  The pattern text is taken to parse
    under the new flags, as every text written without the [u] flag
    does under ["g"]; the SyntaxError of a text that parses under [u]
    only is not covered. *)
Definition new (pattern : option t) (fl : Flags) : t :=
  match pattern with
  | Some R => mk (source R) fl 0
  | None => mk empty_source fl 0
  end.

(** Patterns that are one character class, as in the documentation of
    the component.  [member ci c] says whether code unit [c] is in the
    class, [ci] being the [i] flag. *)
Definition class (member : bool → N → bool) : Pattern :=
  λ ci _ _ _ str index,
    match str !! index with
    | Some c => if member ci c then Some (S index) else None
    | None => None
    end.

Definition between (lo hi c : N) : bool := ((lo <=? c) && (c <=? hi))%N.

(** [\d] *)
Definition digit : Pattern := class (λ _ c, between 48 57 c).
(** [[a-z]], with no flag or with [i] (not [u], whose case folding
    adds two characters). *)
Definition lower : Pattern :=
  class (λ ci c, between 97 122 c || (ci && between 65 90 c)).

(** A regular expression literal [/source/flags]. *)
Definition literal (src : Pattern) (fl : Flags) : t := mk src fl 0.

End RegExp.

(** [replacement : Record<string, RegExp>], read at one-unit keys only.
    Every key holds a RegExp object of its own: one object under two
    keys, which matters under [g] or [y] only, is not covered. *)
Abbreviation Replacement := (gmap N RegExp.t).

(** [receiver.test(inputChar)] where [receiver] is what a property read
    returned: a TypeError when it is [undefined]. *)
Definition call_test (receiver : option RegExp.t) (inputChar : option N)
  : Completion (bool * RegExp.t) :=
  match receiver with
  | Some R => Normal (RegExp.test R inputChar)
  | None => Throw TypeError
  end.

(** ** applyMask *)

(** The local variables of [applyMask] and the RegExp objects reachable
    from [replacement]. *)
Record Vars := mkVars {
  maskedValue : jsstring;
  rawIndex : nat;
  replacement : Replacement
}.

(** How one iteration of the [for] loop ends: it falls through to the
    next one, it leaves through the [break] of the [else] branch of the
    validation (line 175), or through the [break] that follows the test
    [rawIndex >= value.length] (line 189). *)
Inductive Flow := Next | BreakRejected | BreakExhausted.

(** Lines 187-190. *)
Definition exhausted (value : jsstring) (st : Vars) : Flow :=
  if length value <=? rawIndex st then BreakExhausted else Next.

(** The body of the loop, lines 163-190, for [maskChar = mask[i]]. *)
Definition iteration (value : jsstring) (maskChar : N) (st : Vars)
  : Completion (Flow * Vars) :=
  match replacement st !! maskChar with
  | Some _ =>
      let inputChar := at_index value (rawIndex st) in
      let! (matched, R) := call_test (replacement st !! maskChar) inputChar in
      let objects := <[maskChar := R]> (replacement st) in
      if matched
      then
        let st' := mkVars (maskedValue st ++ ToString inputChar)
                          (S (rawIndex st)) objects in
        Normal (exhausted value st', st')
      else Normal (BreakRejected, mkVars (maskedValue st) (rawIndex st) objects)
  | None =>
      let st' := mkVars (maskedValue st ++ [maskChar])
                        (if decide (at_index value (rawIndex st) = Some maskChar)
                         then S (rawIndex st) else rawIndex st)
                        (replacement st) in
      Normal (exhausted value st', st')
  end.

(** How the loop ends: through one of the two [break]s at mask position
    [i], or because [i] reached [mask.length]. *)
Inductive Exit :=
  | SlotRejected (i : nat)
  | InputExhausted (i : nat)
  | MaskEnd.

(** The [for] loop from position [i] on; [rest] is the mask from [i]. *)
Fixpoint for_loop (value : jsstring) (rest : list N) (i : nat) (st : Vars)
  : Completion (Exit * Vars) :=
  match rest with
  | [] => Normal (MaskEnd, st)
  | maskChar :: rest' =>
      let! (flow, st') := iteration value maskChar st in
      match flow with
      | Next => for_loop value rest' (S i) st'
      | BreakRejected => Normal (SlotRejected i, st')
      | BreakExhausted => Normal (InputExhausted i, st')
      end
  end.

(** What [applyMask] hands back from the final state: line 193, and the
    RegExp objects as the loop left them. *)
Definition returned (st : Vars) : jsstring * Replacement :=
  (maskedValue st, replacement st).

(** The loop of [applyMask] from its initial state. *)
Definition run (value mask : jsstring) (replacement : Replacement)
  : Completion (Exit * Vars) :=
  for_loop value mask 0 (mkVars [] 0 replacement).

(** [applyMask(value, mask, replacement)]: the returned string, and the
    RegExp objects as the call leaves them. *)
Definition applyMask (value mask : jsstring) (replacement : Replacement)
  : Completion (jsstring * Replacement) :=
  let! (_, st) := run value mask replacement in
  Normal (returned st).

(** The returned string alone. *)
Definition masked (value mask : jsstring) (replacement : Replacement)
  : Completion jsstring :=
  cmap fst (applyMask value mask replacement).

(** ** The [oninput] handler of the component *)

(** [array.some(callback)], the callback receiving element and index. *)
Fixpoint some {A} (callback : A → nat → bool) (array : list A) (index : nat) : bool :=
  match array with
  | [] => false
  | x :: rest => callback x index || some callback rest (S index)
  end.

(** The callback of line 126.  [regex] is an object, so the guard
    [if (!regex) return false] of line 131 never fires. *)
Definition mismatch (replacement : Replacement) (inputValue : jsstring)
    (char : N) (index : nat) : bool :=
  match at_index inputValue index with
  | None => false
  | Some inputChar =>
      let regex := RegExp.new (replacement !! char) RegExp.g in
      negb (RegExp.test regex (Some inputChar)).1
  end.

(** Lines 126-134: [mask.split("").some(...)]. *)
Definition forbidden (mask : jsstring) (replacement : Replacement)
    (inputValue : jsstring) : bool :=
  some (mismatch replacement inputValue) mask 0.

(** What the handler reads and writes: [this.value], [input.value], the
    bound property [object[property]] and the RegExp objects. *)
Record Component := mkComponent {
  this_value : jsstring;
  input_value : jsstring;
  bound : jsstring;
  regexps : Replacement
}.

(** Lines 121-143.  [onmasked], when given, receives [input.value] and may
    assign the bound property: it is a function from the raw value and
    the property to the property.  A callback that raises, or that
    assigns anything but the bound property, is not covered. *)
Definition oninput (allowunmatches : bool) (mask : jsstring)
    (onmasked : option (jsstring → jsstring → jsstring)) (c : Component)
  : Completion Component :=
  if negb allowunmatches && forbidden mask (regexps c) (input_value c)
  then Normal (mkComponent (this_value c) (this_value c) (bound c) (regexps c))
  else
    let! (v, objects) := applyMask (input_value c) mask (regexps c) in
    let property := match onmasked with
                    | Some callback => callback (input_value c) v
                    | None => v
                    end in
    Normal (mkComponent property (input_value c) property objects).

(** Lines 92-94, [prepare]: the initial [this.value] is the mask applied
    to [defaultvalue || ""]; an absent and an empty default both give
    the empty raw input. *)
Definition prepare (defaultvalue : option jsstring) (mask : jsstring)
    (replacement : Replacement) : Completion (jsstring * Replacement) :=
  applyMask (match defaultvalue with
             | Some (c :: v) => c :: v
             | _ => []
             end) mask replacement.

(** ** Rules used in the documentation and in the examples *)

(** [{ 9: /\d/ }] *)
Definition date_rules : Replacement :=
  {[ 57%N := RegExp.literal RegExp.digit RegExp.no_flags ]}.

(** [{ _: /\d/ }] *)
Definition phone_rules : Replacement :=
  {[ 95%N := RegExp.literal RegExp.digit RegExp.no_flags ]}.

(** [{ _: /[a-z]/ }] *)
Definition letter_rules : Replacement :=
  {[ 95%N := RegExp.literal RegExp.lower RegExp.no_flags ]}.

(** [{ _: /[a-z]/i }] *)
Definition anycase_rules : Replacement :=
  {[ 95%N := RegExp.literal RegExp.lower RegExp.i_flag ]}.

(** [{ 9: /\d/g }], the rule of the README. *)
Definition readme_rules : Replacement :=
  {[ 57%N := RegExp.literal RegExp.digit RegExp.g ]}.

(** ** Vocabulary of the properties *)

(** The loop of [applyMask] gets to mask position [i] in state [st]: the
    positions before [i] were processed and none of them left the loop. *)
Definition reaches (value mask : jsstring) (replacement : Replacement)
    (i : nat) (st : Vars) : Prop :=
  i ≤ length mask ∧ run value (take i mask) replacement = Normal (MaskEnd, st).

(** Rules whose [test] keeps no state: no [g] flag, no [y] flag. *)
Definition stateless (rules : Replacement) : Prop :=
  ∀ char R, rules !! char = Some R → RegExp.stateful R = false.

(** A rule with no flag, or with the flag [g] alone and [lastIndex] 0:
    the rules of the documentation. *)
Definition plain (R : RegExp.t) : Prop :=
  RegExp.flags R = RegExp.no_flags ∨
  (RegExp.flags R = RegExp.g ∧ RegExp.lastIndex R = 0).

(** The one situation in which line 170 tests [undefined] and accepts it:
    the raw input is empty and the rule of the first mask character
    matches the string ["undefined"]. *)
Definition absent_accepted (value mask : jsstring) (rules : Replacement) : Prop :=
  value = [] ∧
  ∃ maskChar rest R, mask = maskChar :: rest ∧ rules !! maskChar = Some R ∧
                     (RegExp.test R None).1 = true.

(** What one position puts in the output: the mask character at a
    literal position; at a slot, a character of the raw input that the
    rule of the slot accepts. *)
Definition rendered (value : jsstring) (rules : Replacement) (maskChar c : N) : Prop :=
  (rules !! maskChar = None → c = maskChar) ∧
  (is_Some (rules !! maskChar) → c ∈ value) ∧
  (stateless rules → ∀ R, rules !! maskChar = Some R →
                          (RegExp.test R (Some c)).1 = true).

(** Rules written without any flag, as [/\d/]. *)
Definition flagless (rules : Replacement) : Prop :=
  ∀ char R, rules !! char = Some R → RegExp.flags R = RegExp.no_flags.

(** The characters of [out] that sit at the slot positions of [mask]. *)
Fixpoint slot_chars (rules : Replacement) (mask out : jsstring) : jsstring :=
  match mask, out with
  | maskChar :: mask', c :: out' =>
      match rules !! maskChar with
      | Some _ => c :: slot_chars rules mask' out'
      | None => slot_chars rules mask' out'
      end
  | _, _ => []
  end.

(** Two mappings with the same keys and, under each key, the same pattern
    text; flags and [lastIndex] may differ. *)
Definition same_sources (rules rules' : Replacement) : Prop :=
  ∀ char, RegExp.source <$> rules !! char = RegExp.source <$> rules' !! char.

(** A rule like the [/\d/g] of the README: one character class, the [g]
    flag, no [y] flag, [lastIndex] 0 as a literal leaves it. *)
Definition global_class (R : RegExp.t) : Prop :=
  (∃ member, RegExp.source R = RegExp.class member) ∧
  RegExp.global (RegExp.flags R) = true ∧
  RegExp.sticky (RegExp.flags R) = false ∧
  RegExp.lastIndex R = 0.

(** Mask characters that are all literals, or all slot markers. *)
Definition literals (rules : Replacement) (l : jsstring) : Prop :=
  Forall (λ maskChar, rules !! maskChar = None) l.

Definition slots (rules : Replacement) (l : jsstring) : Prop :=
  Forall (λ maskChar, is_Some (rules !! maskChar)) l.

(** * Properties *)

(** ** Scenarios *)

Example scenario_unformatted_date :
  masked (js "01012024") (js "99/99/9999") date_rules = Normal (js "01/01/2024").
Proof. by vm_compute. Qed.

Example scenario_first_non_digit :
  masked (js "0a") (js "99/99/9999") date_rules = Normal (js "0").
Proof. by vm_compute. Qed.

Example scenario_partial_date :
  masked (js "0101") (js "99/99/9999") date_rules = Normal (js "01/01").
Proof. by vm_compute. Qed.

(** The rule of the README carries the [g] flag: its [lastIndex] is 1
    after the first digit, the test of the second digit starts there and
    fails. *)
Example scenario_readme_rule :
  masked (js "01012024") (js "99/99/9999") readme_rules = Normal (js "0").
Proof. by vm_compute. Qed.

(** The state stays in the object from one call to the next. *)
Example scenario_readme_rule_twice :
  ∃ objects objects',
    applyMask (js "1") (js "9") readme_rules = Normal (js "1", objects) ∧
    applyMask (js "1") (js "9") objects = Normal (js "", objects').
Proof. do 2 eexists. split; by vm_compute. Qed.


(** ** Regular expressions *)

(** What [test] answers: whether some candidate index matches. *)
Lemma test_matched R inputChar :
  (RegExp.test R inputChar).1 =
    bool_decide (is_Some (RegExp.first_match
                            (RegExp.compile (RegExp.source R) (RegExp.flags R))
                            (ToString inputChar)
                            (RegExp.candidates R (ToString inputChar)))).
Proof.
  unfold RegExp.test, RegExp.exec. by destruct (RegExp.first_match _ _ _).
Qed.

(** Without [g] and [y], [test] leaves the object as it is. *)
Lemma test_stateless R inputChar :
  RegExp.stateful R = false → (RegExp.test R inputChar).2 = R.
Proof.
  intros Hstate. unfold RegExp.test, RegExp.exec. rewrite Hstate.
  by destruct (RegExp.first_match _ _ _).
Qed.

(** ** The loop body *)

Section Body.
Context (value : jsstring).

(** A mask character with no entry in [replacement]: lines 178-184. *)
Lemma iteration_literal maskChar st :
  replacement st !! maskChar = None →
  iteration value maskChar st =
    let st' := mkVars (maskedValue st ++ [maskChar])
                 (if decide (at_index value (rawIndex st) = Some maskChar)
                  then S (rawIndex st) else rawIndex st)
                 (replacement st) in
    Normal (exhausted value st', st').
Proof. intros Hnone. unfold iteration. by rewrite Hnone. Qed.

(** A mask character with an entry: lines 167-176. *)
Lemma iteration_slot maskChar R st :
  replacement st !! maskChar = Some R →
  iteration value maskChar st =
    let inputChar := at_index value (rawIndex st) in
    let objects := <[maskChar := (RegExp.test R inputChar).2]> (replacement st) in
    if (RegExp.test R inputChar).1
    then
      let st' := mkVars (maskedValue st ++ ToString inputChar)
                   (S (rawIndex st)) objects in
      Normal (exhausted value st', st')
    else Normal (BreakRejected, mkVars (maskedValue st) (rawIndex st) objects).
Proof.
  intros Hsome. unfold iteration. rewrite Hsome. simpl.
  by destruct (RegExp.test R (at_index value (rawIndex st))) as [[] R'].
Qed.

End Body.

(** The case analysis of line 166 on the goal: [maskChar] has a rule [R]
    and the body is lines 167-176, or it has none and the body is lines
    178-184. *)
Ltac slot_or_literal value maskChar st R Hrule :=
  destruct (replacement st !! maskChar) as [R|] eqn:Hrule;
  [ rewrite (iteration_slot value maskChar R st) by done
  | rewrite (iteration_literal value maskChar st) by done ];
  simpl.

(** The test of line 188 never takes the [break] of line 175. *)
Lemma exhausted_flow value st :
  match exhausted value st with
  | Next => rawIndex st < length value
  | BreakExhausted => length value ≤ rawIndex st
  | BreakRejected => False
  end.
Proof.
  unfold exhausted. destruct (Nat.leb_spec (length value) (rawIndex st)); lia.
Qed.

(** The body raises nothing: the read of line 166 guards the call of
    line 170. *)
Lemma iteration_normal value maskChar st :
  ∃ flow st', iteration value maskChar st = Normal (flow, st').
Proof.
  slot_or_literal value maskChar st R Hrule; [|by eauto].
  destruct (RegExp.test R _).1; eauto.
Qed.

(** The raw cursor never moves back, and moves by at most one. *)
Lemma iteration_rawIndex value maskChar st flow st' :
  iteration value maskChar st = Normal (flow, st') →
  rawIndex st ≤ rawIndex st' ≤ S (rawIndex st).
Proof.
  slot_or_literal value maskChar st R Hrule.
  - destruct (RegExp.test R _).1; intros [= <- <-]; simpl; lia.
  - intros [= <- <-]; simpl. case_decide; lia.
Qed.

(** What the flow of an iteration says about the cursor. *)
Lemma iteration_flow value maskChar st flow st' :
  iteration value maskChar st = Normal (flow, st') →
  match flow with
  | Next => rawIndex st' < length value
  | BreakExhausted => length value ≤ rawIndex st'
  | BreakRejected => is_Some (replacement st !! maskChar)
  end.
Proof.
  slot_or_literal value maskChar st R Hrule.
  - destruct (RegExp.test R _).1; intros [= <- <-]; [|by eauto].
    match goal with |- context [exhausted value ?s] =>
      pose proof (exhausted_flow value s); by destruct (exhausted value s) end.
  - intros [= <- <-].
    match goal with |- context [exhausted value ?s] =>
      pose proof (exhausted_flow value s); by destruct (exhausted value s) end.
Qed.

(** ** The loop *)

Lemma for_loop_normal value rest i st :
  ∃ exit st', for_loop value rest i st = Normal (exit, st').
Proof.
  revert i st. induction rest as [|maskChar rest IH]; intros i st; simpl.
  - eauto.
  - destruct (iteration_normal value maskChar st) as (flow & st' & ->). simpl.
    destruct flow; eauto.
Qed.


(** Running the loop over [l1 ++ l2] is running it over [l1] and, when
    that falls off the end of [l1], over [l2]. *)
Lemma for_loop_app value l1 l2 i st :
  for_loop value (l1 ++ l2) i st =
    let! (exit, st') := for_loop value l1 i st in
    match exit with
    | MaskEnd => for_loop value l2 (i + length l1) st'
    | _ => Normal (exit, st')
    end.
Proof.
  revert i st. induction l1 as [|maskChar l1 IH]; intros i st; simpl.
  - by rewrite Nat.add_0_r.
  - destruct (iteration value maskChar st) as [[flow st1]|e]; simpl; [|done].
    destruct flow; [|done..].
    rewrite IH. by replace (S i + length l1) with (i + S (length l1)) by lia.
Qed.

(** Where the loop stops. *)
Lemma for_loop_stop value rest i st exit st' :
  for_loop value rest i st = Normal (exit, st') →
  match exit with
  | SlotRejected k =>
      ∃ j st_j maskChar R,
        k = i + j ∧ for_loop value (take j rest) i st = Normal (MaskEnd, st_j) ∧
        rest !! j = Some maskChar ∧ replacement st_j !! maskChar = Some R ∧
        (RegExp.test R (at_index value (rawIndex st_j))).1 = false ∧
        maskedValue st' = maskedValue st_j ∧ rawIndex st' = rawIndex st_j
  | InputExhausted k =>
      ∃ j st_j maskChar,
        k = i + j ∧ for_loop value (take j rest) i st = Normal (MaskEnd, st_j) ∧
        rest !! j = Some maskChar ∧
        iteration value maskChar st_j = Normal (BreakExhausted, st') ∧
        length value ≤ rawIndex st'
  | MaskEnd => (rest = [] ∧ st' = st) ∨ rawIndex st' < length value
  end.
Proof.
  revert i st. induction rest as [|maskChar rest IH]; intros i st; simpl.
  { intros [= <- <-]. by left. }
  destruct (iteration value maskChar st) as [[flow st1]|e] eqn:Hit; simpl; [|done].
  destruct flow.
  - intros Hrest. specialize (IH _ _ Hrest). destruct exit as [k|k|].
    + destruct IH as (j & st_j & c & R & -> & Hj & Hc & HR & Htest & Hout & Hraw).
      exists (S j), st_j, c, R. simpl. rewrite Hit. simpl.
      split_and!; [lia|done..].
    + destruct IH as (j & st_j & c & -> & Hj & Hc & Hbody & Hlen).
      exists (S j), st_j, c. simpl. rewrite Hit. simpl.
      split_and!; [lia|done..].
    + right. destruct IH as [[-> ->]|?]; [|done].
      by apply iteration_flow in Hit.
  - intros [= <- <-].
    pose proof (iteration_flow _ _ _ _ _ Hit) as [R HR]. simpl in *.
    rewrite (iteration_slot _ _ R) in Hit by done. simpl in Hit.
    destruct (RegExp.test R (at_index value (rawIndex st))).1 eqn:Htest.
    { unfold exhausted in Hit. by destruct (_ <=? _). }
    injection Hit as <-.
    exists 0, st, maskChar, R. simpl. split_and!; [lia|done..].
  - intros [= <- <-].
    exists 0, st, maskChar. simpl. split_and!; [lia|done..|].
    by apply iteration_flow in Hit.
Qed.





(** The returned string is the [maskedValue] the loop ends with. *)
Lemma masked_run value mask rules exit st :
  run value mask rules = Normal (exit, st) →
  masked value mask rules = Normal (maskedValue st).
Proof. intros Hrun. unfold masked, applyMask. by rewrite Hrun. Qed.

(** The loop adds and removes no key of [replacement]. *)
Lemma iteration_keys value maskChar st flow st' key :
  iteration value maskChar st = Normal (flow, st') →
  replacement st' !! key = None ↔ replacement st !! key = None.
Proof.
  slot_or_literal value maskChar st R Hrule; [|by intros [= <- <-]].
  assert (∀ R', <[maskChar:=R']> (replacement st) !! key = None
                ↔ replacement st !! key = None) as Hins.
  { intros R'. rewrite lookup_insert_None. split; [by intros []|].
    intros Hkey. split; [done|]. intros ->. congruence. }
  destruct (RegExp.test R _).1; intros [= <- <-]; apply Hins.
Qed.

Lemma for_loop_keys value rest i st exit st' key :
  for_loop value rest i st = Normal (exit, st') →
  replacement st' !! key = None ↔ replacement st !! key = None.
Proof.
  revert i st. induction rest as [|maskChar rest IH]; intros i st; simpl.
  { by intros [= <- <-]. }
  destruct (iteration value maskChar st) as [[flow st1]|e] eqn:Hit; simpl; [|done].
  pose proof (iteration_keys _ _ _ _ _ key Hit) as Hkeys.
  destruct flow; [|by intros [= <- <-]..].
  intros Hrest%IH. by rewrite Hrest.
Qed.

(** The output only grows. *)
Lemma iteration_maskedValue value maskChar st flow st' :
  iteration value maskChar st = Normal (flow, st') →
  maskedValue st `prefix_of` maskedValue st'.
Proof.
  slot_or_literal value maskChar st R Hrule.
  - destruct (RegExp.test R _).1; intros [= <- <-]; simpl;
      [by apply prefix_app_r|done].
  - intros [= <- <-]. by apply prefix_app_r.
Qed.

Lemma for_loop_maskedValue value rest i st exit st' :
  for_loop value rest i st = Normal (exit, st') →
  maskedValue st `prefix_of` maskedValue st'.
Proof.
  revert i st. induction rest as [|maskChar rest IH]; intros i st; simpl.
  { by intros [= <- <-]. }
  destruct (iteration value maskChar st) as [[flow st1]|e] eqn:Hit; simpl; [|done].
  apply iteration_maskedValue in Hit.
  destruct flow; [|by intros [= <- <-]..].
  intros Hrest%IH. by etrans.
Qed.

(** From a position the loop reaches, the run goes on with the rest of
    the mask. *)
Lemma reaches_run value mask rules i st :
  reaches value mask rules i st →
  run value mask rules = for_loop value (drop i mask) i st.
Proof.
  intros [Hle Hrun]. unfold run in *.
  rewrite <- (take_drop i mask) at 1. rewrite for_loop_app, Hrun. simpl.
  by rewrite length_take_le.
Qed.

Lemma reaches_keys value mask rules i st key :
  reaches value mask rules i st →
  replacement st !! key = None ↔ rules !! key = None.
Proof. intros [_ Hrun]. by apply for_loop_keys with (key := key) in Hrun. Qed.

(** ** Claims *)

(** C8.  [applyMask] returns on every input, whatever the raw value, the
    mask and the mapping are: no call raises.  In particular the body of
    the loop, at a mask character with no entry in the mapping, raises
    nothing and appends that character, as for any literal. *)
Theorem applyMask_total value mask rules :
  (∃ out objects, applyMask value mask rules = Normal (out, objects)) ∧
  (∀ maskChar st,
     replacement st !! maskChar = None →
     ∃ flow st', iteration value maskChar st = Normal (flow, st') ∧
                 maskedValue st' = maskedValue st ++ [maskChar]).
Proof.
  split.
  - unfold applyMask.
    destruct (for_loop_normal value mask 0 (mkVars [] 0 rules)) as (exit & st & Hrun).
    unfold run. rewrite Hrun. simpl. eauto.
  - intros maskChar st Hnone. rewrite iteration_literal by done. simpl. eauto.
Qed.

Lemma applyMask_total_witness :
  (∃ out objects, applyMask (js "12345") (js "(9)") date_rules = Normal (out, objects)) ∧
  ∃ flow st', iteration (js "12345") 40%N (mkVars [] 0 date_rules) = Normal (flow, st') ∧
              maskedValue st' = [] ++ [40%N].
Proof.
  destruct (applyMask_total (js "12345") (js "(9)") date_rules) as [Hret Hlit].
  split; [exact Hret|]. apply Hlit. reflexivity.
Defined.

(** C4.  When the loop is at a mask position whose character has no entry
    in the validation mapping, it appends that character to the output
    whatever the raw input is, and the raw cursor moves by exactly one
    when the raw character at the cursor is that character and stays
    otherwise; what was appended stays in the returned string.  So an
    already formatted value has its separators consumed:
    [applyMask("01/01/2024", "99/99/9999", {9: /\d/})] is ["01/01/2024"]. *)
Theorem literal_appended_and_skipped :
  (∀ value mask rules i st maskChar,
     reaches value mask rules i st →
     mask !! i = Some maskChar →
     rules !! maskChar = None →
     ∃ flow st' out,
       iteration value maskChar st = Normal (flow, st') ∧
       maskedValue st' = maskedValue st ++ [maskChar] ∧
       (rawIndex st' = S (rawIndex st) ↔ at_index value (rawIndex st) = Some maskChar) ∧
       (rawIndex st' = rawIndex st ↔ at_index value (rawIndex st) ≠ Some maskChar) ∧
       masked value mask rules = Normal out ∧
       maskedValue st' `prefix_of` out) ∧
  masked (js "01/01/2024") (js "99/99/9999") date_rules = Normal (js "01/01/2024").
Proof.
  split; [|by vm_compute].
  intros value mask rules i st maskChar Hreach Hchar Hnone.
  assert (Hst : replacement st !! maskChar = None) by by apply (reaches_keys _ _ _ _ _ _ Hreach).
  pose proof (reaches_run _ _ _ _ _ Hreach) as Hrun.
  rewrite (drop_S _ _ _ Hchar) in Hrun. simpl in Hrun.
  rewrite iteration_literal in Hrun |- * by done. simpl in Hrun |- *.
  set (st' := mkVars _ _ _) in *.
  assert (∃ exit st'', run value mask rules = Normal (exit, st'') ∧
                       maskedValue st' `prefix_of` maskedValue st'') as (exit & st'' & Hfin & Hpre).
  { destruct (exhausted value st').
    - destruct (for_loop_normal value (drop (S i) mask) (S i) st') as (exit & st'' & Hrest).
      rewrite Hrest in Hrun. exists exit, st''. split; [done|].
      by eapply for_loop_maskedValue.
    - by eauto.
    - by eauto. }
  exists (exhausted value st'), st', (maskedValue st'').
  split_and!; [done|done|..|by eapply masked_run|done].
  - subst st'; simpl. case_decide; [done|]. split; [lia|done].
  - subst st'; simpl. case_decide; [|done]. split; [lia|done].
Qed.

Lemma literal_appended_and_skipped_witness :
  ∃ flow st' out,
    iteration (js "1/2") 47%N (mkVars (js "1") 1 date_rules) = Normal (flow, st') ∧
    maskedValue st' = js "1" ++ [47%N] ∧
    (rawIndex st' = 2 ↔ at_index (js "1/2") 1 = Some 47%N) ∧
    (rawIndex st' = 1 ↔ at_index (js "1/2") 1 ≠ Some 47%N) ∧
    masked (js "1/2") (js "9/9") date_rules = Normal out ∧
    maskedValue st' `prefix_of` out.
Proof.
  apply (proj1 literal_appended_and_skipped (js "1/2") (js "9/9") date_rules 1
           (mkVars (js "1") 1 date_rules) 47%N).
  - split; [simpl; lia|]. vm_compute. reflexivity.
  - reflexivity.
  - reflexivity.
Defined.

(** On the empty raw input the loop processes the first mask position at
    most: a literal is appended before the test of line 188 ends the
    loop. *)
Lemma masked_empty_literal rules maskChar rest :
  rules !! maskChar = None →
  masked [] (maskChar :: rest) rules = Normal [maskChar].
Proof.
  intros Hnone. unfold masked, applyMask, run. simpl.
  by rewrite iteration_literal.
Qed.

(** C10.  On the empty raw input, a mask whose first character has no
    entry in the validation mapping yields that one character: the test
    [rawIndex >= value.length] comes after the character was appended. *)
Theorem applyMask_empty_value_literal rules maskChar rest :
  rules !! maskChar = None →
  masked [] (maskChar :: rest) rules = Normal [maskChar] ∧
  ∃ st, run [] (maskChar :: rest) rules = Normal (InputExhausted 0, st).
Proof.
  intros Hnone. split; [by apply masked_empty_literal|].
  unfold run. simpl. rewrite iteration_literal by done. simpl. eauto.
Qed.

Lemma applyMask_empty_value_literal_witness :
  masked [] (40%N :: js "__) ____-____") phone_rules = Normal [40%N] ∧
  ∃ st, run [] (40%N :: js "__) ____-____") phone_rules = Normal (InputExhausted 0, st).
Proof. apply applyMask_empty_value_literal. reflexivity. Defined.

(** C2, as stated, fails: with the mask ["(__) ____-____"] and
    [{_: /\d/}] the empty raw input yields ["("]. *)
Lemma applyMask_empty_value_counterexample :
  masked (js "") (js "(__) ____-____") phone_rules = Normal (js "(") ∧
  masked (js "") (js "(__) ____-____") phone_rules ≠ Normal (js "").
Proof. split; [by vm_compute|]. vm_compute. discriminate. Qed.

(** C2, amended.  The empty raw input yields the empty string when the
    mask is empty, or when its first character is a slot marker whose
    rule fails on the absent character; it yields the first character of
    the mask when that character has no entry in the mapping, so ["("]
    for the mask ["(__) ____-____"] and [{_: /\d/}]. *)
Theorem applyMask_empty_value rules mask :
  ((mask = [] ∨
    ∃ maskChar rest R, mask = maskChar :: rest ∧ rules !! maskChar = Some R ∧
                       (RegExp.test R (at_index [] 0)).1 = false) →
   masked [] mask rules = Normal []) ∧
  (∀ maskChar rest, mask = maskChar :: rest → rules !! maskChar = None →
                    masked [] mask rules = Normal [maskChar]) ∧
  masked (js "") (js "(__) ____-____") phone_rules = Normal (js "(").
Proof.
  split_and!; [..|by vm_compute].
  - intros [->|(maskChar & rest & R & -> & Hrule & Htest)]; [done|].
    unfold masked, applyMask, run. simpl.
    rewrite (iteration_slot _ _ R) by done. simpl in *. by rewrite Htest.
  - intros maskChar rest -> Hnone. by apply masked_empty_literal.
Qed.

Lemma applyMask_empty_value_witness :
  masked [] (js "__/__") phone_rules = Normal [] ∧
  masked [] (js "-__") phone_rules = Normal (js "-").
Proof.
  destruct (applyMask_empty_value phone_rules (js "__/__")) as (Hslot & _ & _).
  destruct (applyMask_empty_value phone_rules (js "-__")) as (_ & Hliteral & _).
  split.
  - apply Hslot. right.
    exists 95%N, (js "_/__"), (RegExp.literal RegExp.digit RegExp.no_flags).
    split_and!; reflexivity.
  - apply (Hliteral 45%N (js "__")); reflexivity.
Defined.

(** ** Masks without slot markers *)

(** With no rule at all, the loop appends the mask characters one by one
    and the cursor moves by at most one at each of them; it does not move
    at all when the raw character it points at is not in the mask. *)
Lemma for_loop_literals value rest i st exit st' :
  replacement st = ∅ →
  for_loop value rest i st = Normal (exit, st') →
  ∃ n, maskedValue st' = maskedValue st ++ take n rest ∧
       (rest ≠ [] → 0 < n) ∧
       (rawIndex st + length rest ≤ length value → n = length rest) ∧
       (∀ c, at_index value (rawIndex st) = Some c → c ∉ rest → n = length rest).
Proof.
  revert i st. induction rest as [|maskChar rest IH]; intros i st Hempty; simpl.
  { intros [= <- <-]. exists 0. by rewrite app_nil_r. }
  assert (Hnone : replacement st !! maskChar = None) by by rewrite Hempty.
  rewrite iteration_literal by done. simpl.
  set (st1 := mkVars _ _ _).
  assert (Hraw : rawIndex st1 ≤ S (rawIndex st)) by (subst st1; simpl; case_decide; lia).
  assert (Hstay : ∀ c, at_index value (rawIndex st) = Some c → c ∉ maskChar :: rest →
                       rawIndex st1 = rawIndex st ∧ rawIndex st1 < length value).
  { intros c Hc Hnotin. subst st1; simpl. rewrite decide_False.
    - split; [done|]. by eapply lookup_lt_Some.
    - rewrite Hc. intros [= ->]. apply Hnotin. by left. }
  pose proof (Nat.leb_spec (length value) (rawIndex st1)) as Hleb.
  unfold exhausted. destruct Hleb as [Hle|Hlt].
  - intros [= <- <-]. exists 1. simpl. rewrite take_0.
    split_and!; [done|lia|..].
    + intros Hlen. destruct rest; simpl in *; [done|lia].
    + intros c Hc Hnotin. destruct (Hstay c Hc Hnotin). lia.
  - intros Hrest. destruct (IH (S i) st1 Hempty Hrest) as (n & Hout & _ & Hfull & Hskip).
    exists (S n). simpl. rewrite Hout. subst st1; simpl.
    rewrite <- app_assoc. split_and!; [done|lia|..].
    + intros Hlen. f_equal. apply Hfull. simpl in *. lia.
    + intros c Hc Hnotin. f_equal. apply (Hskip c).
      * destruct (Hstay c Hc Hnotin) as [Heq _]. simpl in Heq |- *. by rewrite Heq.
      * intros Hin. apply Hnotin. by right.
Qed.

(** C6, as stated, fails: the raw input ["a"] is used up by the first
    character of the mask ["ab"], and the rendering stops there. *)
Lemma applyMask_literal_mask_counterexample :
  js "a" ≠ [] ∧
  masked (js "a") (js "ab") ∅ = Normal (js "a") ∧
  masked (js "a") (js "ab") ∅ ≠ Normal (js "ab").
Proof. split_and!; [done|by vm_compute|]. vm_compute. discriminate. Qed.

(** C6, amended.  With the empty mapping and a non-empty raw input, the
    returned string is a prefix of the mask, not empty unless the mask
    is, and it is the whole mask when the raw input has at least as many
    characters as the mask, or when its first character does not occur
    in the mask. *)
Theorem applyMask_literal_mask value mask :
  value ≠ [] →
  ∃ out, masked value mask ∅ = Normal out ∧
         out `prefix_of` mask ∧
         (mask ≠ [] → out ≠ []) ∧
         (length mask ≤ length value → out = mask) ∧
         (∀ c, at_index value 0 = Some c → c ∉ mask → out = mask).
Proof.
  intros _.
  destruct (for_loop_normal value mask 0 (mkVars [] 0 ∅)) as (exit & st & Hrun).
  exists (maskedValue st). split; [by eapply masked_run|].
  destruct (for_loop_literals value mask 0 (mkVars [] 0 ∅) exit st eq_refl Hrun)
    as (n & Hout & Hpos & Hfull & Hskip).
  simpl in *. rewrite Hout. split_and!.
  - apply prefix_take.
  - intros Hmask Hnil. specialize (Hpos Hmask).
    destruct mask, n; simpl in *; done || lia.
  - intros Hlen. rewrite Hfull by done. apply firstn_all.
  - intros c Hc Hnotin. rewrite (Hskip c) by done. apply firstn_all.
Qed.

Lemma applyMask_literal_mask_witness :
  ∃ out, masked (js "xy") (js "a-b") ∅ = Normal out ∧
         out `prefix_of` js "a-b" ∧ out ≠ [] ∧ out = js "a-b".
Proof.
  destruct (applyMask_literal_mask (js "xy") (js "a-b"))
    as (out & Hout & Hpre & Hne & _ & Hskip); [vm_compute; discriminate|].
  exists out. split_and!; [done|done|..].
  - apply Hne. vm_compute. discriminate.
  - apply (Hskip 120%N); [reflexivity|].
    unfold js; simpl. rewrite !not_elem_of_cons.
    split_and!; [discriminate..|apply not_elem_of_nil].
Defined.

(** ** Where the pass stops *)




(** ** The absent character *)

(** When the raw input is empty and the mask starts with a slot marker,
    line 167 reads [undefined] and line 170 tests the string
    ["undefined"]: a rule that matches one of its letters accepts it, and
    line 171 appends the nine letters. *)

(** The component meets the situation when it is mounted with no default
    value. *)
Example prepare_undefined :
  cmap fst (prepare None (js "_") letter_rules) = Normal (js "undefined").
Proof. by vm_compute. Qed.

(** C3.  The length bound fails on the empty raw input when the first
    slot's rule matches a letter of ["undefined"]: with the mask ["_"] and
    [{_: /[a-z]/}] the returned string has nine characters, none of them
    a character of the raw input. *)
Theorem applyMask_undefined_length :
  masked (js "") (js "_") letter_rules = Normal (js "undefined") ∧
  length (js "_") < length (js "undefined").
Proof. split; [by vm_compute|]. simpl. lia. Qed.

(** C5.  Idempotence fails on the same input: the second application
    reads ["undefined"] as raw input and keeps its first letter. *)
Theorem applyMask_undefined_not_idempotent :
  ∃ out objects out' objects',
    applyMask (js "") (js "_") letter_rules = Normal (out, objects) ∧
    applyMask out (js "_") objects = Normal (out', objects') ∧
    out = js "undefined" ∧ out' = js "u" ∧ out' ≠ out.
Proof.
  do 4 eexists. split_and!; [by vm_compute|by vm_compute|done|done|].
  vm_compute. discriminate.
Qed.

(** C7.  Prefix monotonicity fails on the same input: the empty string is
    a prefix of ["a"], and the string returned for it is not a prefix of
    the string returned for ["a"]. *)
Theorem applyMask_undefined_not_monotone :
  ∃ out_y out_x,
    js "" `prefix_of` js "a" ∧
    masked (js "") (js "_") letter_rules = Normal out_y ∧
    masked (js "a") (js "_") letter_rules = Normal out_x ∧
    out_y = js "undefined" ∧ out_x = js "a" ∧
    ¬ out_y `prefix_of` out_x.
Proof.
  do 2 eexists. split_and!; [apply prefix_nil|by vm_compute|by vm_compute|done|done|].
  intros [k Hk]. vm_compute in Hk. discriminate.
Qed.

(** ** The keystroke gate *)

(** C9.  The gate tests a copy of the rule made with the flags ["g"]
    alone, so it rejects a character that the rule accepts through
    another flag: with the mask ["_"] and [{_: /[a-z]/i}], the raw value
    ["A"] passes the rule and [applyMask] keeps it, and the gate rejects
    it and restores the previous value. *)
Theorem gate_drops_flags :
  ∃ R,
    anycase_rules !! 95%N = Some R ∧
    (RegExp.test R (Some 65%N)).1 = true ∧
    masked (js "A") (js "_") anycase_rules = Normal (js "A") ∧
    forbidden (js "_") anycase_rules (js "A") = true ∧
    cmap (λ c, (this_value c, input_value c, bound c))
         (oninput false (js "_") None (mkComponent (js "") (js "A") (js "") anycase_rules))
      = Normal (js "", js "", js "").
Proof. eexists. split_and!; by vm_compute. Qed.

(** ** Outside the defect of the absent character *)

(** With rules that keep no state, an iteration leaves the RegExp
    objects as they are. *)
Lemma iteration_stateless value maskChar st flow st' :
  stateless (replacement st) →
  iteration value maskChar st = Normal (flow, st') →
  replacement st' = replacement st.
Proof.
  intros Hstateless.
  slot_or_literal value maskChar st R Hrule; [|by intros [= <- <-]].
  rewrite test_stateless by eauto. rewrite insert_id by done.
  by destruct (RegExp.test R _).1; intros [= <- <-].
Qed.

(** With the cursor inside the raw input, an iteration appends at most
    one character. *)
Lemma iteration_appends value maskChar st flow st' :
  rawIndex st < length value →
  iteration value maskChar st = Normal (flow, st') →
  (flow = BreakRejected ∧ maskedValue st' = maskedValue st) ∨
  (flow ≠ BreakRejected ∧
   ∃ c, maskedValue st' = maskedValue st ++ [c] ∧
        rendered value (replacement st) maskChar c).
Proof.
  intros Hin. apply lookup_lt_is_Some in Hin as [c Hc].
  assert (Hex : ∀ s, exhausted value s ≠ BreakRejected).
  { intros s. unfold exhausted. by destruct (_ <=? _). }
  destruct (replacement st !! maskChar) as [R|] eqn:Hrule.
  - rewrite (iteration_slot _ _ R) by done. simpl. unfold at_index. rewrite Hc.
    destruct (RegExp.test R _).1 eqn:Htest; intros [= <- <-]; simpl; [|by left].
    right. split; [done|]. exists c. split; [done|].
    unfold rendered. rewrite Hrule. split_and!; [done|..].
    + intros _. by eapply list_elem_of_lookup_2.
    + by intros _ R' [= <-].
  - rewrite iteration_literal by done. simpl. intros [= <- <-]. simpl.
    right. split; [done|]. exists maskChar. split; [done|].
    unfold rendered. rewrite Hrule. split_and!; [done|by intros [? ?]|done].
Qed.

(** The string the loop adds is no longer than the mask it walks, and
    each of its characters is what the mask position renders. *)
Lemma for_loop_rendering value rest i st exit st' :
  rawIndex st < length value →
  for_loop value rest i st = Normal (exit, st') →
  ∃ added,
    maskedValue st' = maskedValue st ++ added ∧
    length added ≤ length rest ∧
    ∀ j c, added !! j = Some c →
           ∃ maskChar, rest !! j = Some maskChar ∧
                       rendered value (replacement st) maskChar c.
Proof.
  revert i st. induction rest as [|maskChar rest IH]; intros i st Hin; simpl.
  { intros [= <- <-]. exists []. rewrite app_nil_r. split_and!; [done|done|].
    by intros j c Hj. }
  destruct (iteration value maskChar st) as [[flow st1]|e] eqn:Hit; simpl; [|done].
  pose proof (λ key, iteration_keys _ _ _ _ _ key Hit) as Hkeys.
  pose proof (iteration_flow _ _ _ _ _ Hit) as Hflow.
  destruct (iteration_appends _ _ _ _ _ Hin Hit)
    as [[-> Hsame]|[Hne (c & Hadd & Hc)]].
  { intros [= <- <-]. exists []. rewrite app_nil_r. split_and!; [done|simpl; lia|].
    by intros j c Hj. }
  assert (Hone : ∀ j c', [c] !! j = Some c' →
            ∃ m, (maskChar :: rest) !! j = Some m ∧
                 rendered value (replacement st) m c').
  { intros [|j] c' Hj; simplify_eq/=. by exists maskChar. }
  destruct flow; [|done|].
  - intros Hrest. destruct (IH _ _ Hflow Hrest) as (added & Hout & Hlen & Hpos).
    exists (c :: added). rewrite Hout, Hadd, <- app_assoc. split_and!; [done|simpl; lia|].
    intros [|j] c' Hj; [by apply (Hone 0)|]. simpl in Hj.
    destruct (Hpos _ _ Hj) as (m & Hm & Hl & Hs & Ht). exists m. split; [done|].
    split_and!.
    + intros Hnone. apply Hl. by apply Hkeys.
    + intros Hsome. apply Hs. rewrite <- not_eq_None_Some in Hsome |- *.
      by rewrite Hkeys.
    + intros Hstateless R HR.
      pose proof (iteration_stateless _ _ _ _ _ Hstateless Hit) as Hsame.
      rewrite Hsame in Ht. by apply Ht.
  - intros [= <- <-]. exists [c]. split_and!; [done|simpl; lia|done].
Qed.

(** Outside the defect, the output is no longer than the mask, holds the
    mask's literal at each of its literal positions and, at each of its
    slots, a character of the raw input that the rule accepts. *)
Lemma applyMask_rendering value mask rules out :
  ¬ absent_accepted value mask rules →
  masked value mask rules = Normal out →
  length out ≤ length mask ∧
  ∀ j c, out !! j = Some c →
         ∃ maskChar, mask !! j = Some maskChar ∧ rendered value rules maskChar c.
Proof.
  intros Hdefect.
  destruct (for_loop_normal value mask 0 (mkVars [] 0 rules)) as (exit & st & Hrun).
  rewrite (masked_run _ _ _ _ _ Hrun). intros [= <-].
  destruct value as [|v value].
  - (* the empty raw input: at most the first position is processed *)
    destruct mask as [|maskChar rest]; simpl in Hrun.
    { injection Hrun as <- <-. split; [done|]. by intros j c Hj. }
    destruct (rules !! maskChar) as [R|] eqn:Hrule.
    + rewrite (iteration_slot _ _ R) in Hrun by done. simpl in Hrun.
      destruct (RegExp.test R None).1 eqn:Htest.
      { destruct Hdefect. split; [done|]. by exists maskChar, rest, R. }
      injection Hrun as <- <-. split; [simpl; lia|]. by intros j c Hj.
    + rewrite iteration_literal in Hrun by done. simpl in Hrun.
      injection Hrun as <- <-. simpl. split; [lia|].
      intros [|j] c Hj; simplify_eq/=. exists c. split; [done|].
      unfold rendered. rewrite Hrule. split_and!; [done|by intros [? ?]|done].
  - destruct (for_loop_rendering (v :: value) mask 0 (mkVars [] 0 rules) exit st)
      as (added & Hout & Hlen & Hpos); [simpl; lia|done|].
    simpl in Hout. by rewrite Hout.
Qed.

(** With the cursor inside [y], an iteration on a longer raw input
    [y ++ z] reads the same character and does the same; only the test of
    line 188 may now let the loop go on. *)
Lemma iteration_extend y z maskChar st flow st' :
  rawIndex st < length y →
  iteration y maskChar st = Normal (flow, st') →
  iteration (y ++ z) maskChar st =
    Normal (match flow with
            | BreakExhausted => exhausted (y ++ z) st'
            | _ => flow
            end, st').
Proof.
  intros Hin Hit.
  pose proof (iteration_flow _ _ _ _ _ Hit) as Hflow.
  assert (Hchar : at_index (y ++ z) (rawIndex st) = at_index y (rawIndex st))
    by by apply lookup_app_l.
  assert (Hex : ∀ s, exhausted y s = Next → exhausted (y ++ z) s = Next).
  { intros s. unfold exhausted. rewrite length_app.
    destruct (Nat.leb_spec (length y) (rawIndex s)); [done|].
    intros _. destruct (Nat.leb_spec (length y + length z) (rawIndex s)); [lia|done]. }
  destruct (replacement st !! maskChar) as [R|] eqn:Hrule.
  - rewrite (iteration_slot y _ R) in Hit by done.
    rewrite (iteration_slot (y ++ z) _ R) by done. simpl in *. rewrite Hchar.
    destruct (RegExp.test R _).1; [|by injection Hit as <- <-].
    injection Hit as Hfl <-. rewrite <- Hfl.
    destruct (exhausted y _) eqn:Hy; [by rewrite (Hex _ Hy)|..]; try done.
    unfold exhausted in Hy. by destruct (_ <=? _).
  - rewrite (iteration_literal y) in Hit by done.
    rewrite (iteration_literal (y ++ z)) by done. simpl in *. rewrite Hchar.
    injection Hit as Hfl <-. rewrite <- Hfl.
    destruct (exhausted y _) eqn:Hy; [by rewrite (Hex _ Hy)|..]; try done.
    unfold exhausted in Hy. by destruct (_ <=? _).
Qed.

Lemma for_loop_extend y z rest i st exit st' :
  rawIndex st < length y →
  for_loop y rest i st = Normal (exit, st') →
  ∃ exit'' st'', for_loop (y ++ z) rest i st = Normal (exit'', st'') ∧
                 maskedValue st' `prefix_of` maskedValue st''.
Proof.
  revert i st. induction rest as [|maskChar rest IH]; intros i st Hin; simpl.
  { intros [= <- <-]. by eauto. }
  destruct (iteration y maskChar st) as [[flow st1]|e] eqn:Hit; simpl; [|done].
  rewrite (iteration_extend _ _ _ _ _ _ Hin Hit). simpl.
  pose proof (iteration_flow _ _ _ _ _ Hit) as Hflow.
  destruct flow.
  - intros Hrest. by apply (IH _ _ Hflow Hrest).
  - intros [= <- <-]. by eauto.
  - intros [= <- <-]. destruct (exhausted (y ++ z) st1); [|by eauto..].
    destruct (for_loop_normal (y ++ z) rest (S i) st1) as (exit'' & st'' & Hrest).
    exists exit'', st''. split; [done|]. by eapply for_loop_maskedValue.
Qed.

(** Outside the defect, the output for a prefix of the raw input is a
    prefix of the output, whatever the characters are. *)
Lemma applyMask_prefix_monotone y x mask rules out_y out_x :
  ¬ absent_accepted y mask rules →
  y `prefix_of` x →
  masked y mask rules = Normal out_y →
  masked x mask rules = Normal out_x →
  out_y `prefix_of` out_x.
Proof.
  intros Hdefect [z ->].
  destruct (for_loop_normal y mask 0 (mkVars [] 0 rules)) as (exit & st & Hrun).
  rewrite (masked_run _ _ _ _ _ Hrun). intros [= <-].
  destruct y as [|v y].
  - destruct (for_loop_normal ([] ++ z) mask 0 (mkVars [] 0 rules)) as (exit' & st' & Hrun').
    rewrite (masked_run _ _ _ _ _ Hrun'). intros [= <-].
    destruct mask as [|maskChar rest]; simpl in Hrun, Hrun'.
    { injection Hrun as <- <-. apply prefix_nil. }
    destruct (rules !! maskChar) as [R|] eqn:Hrule.
    + rewrite (iteration_slot _ _ R) in Hrun by done. simpl in Hrun.
      destruct (RegExp.test R None).1 eqn:Htest.
      { destruct Hdefect. split; [done|]. by exists maskChar, rest, R. }
      injection Hrun as <- <-. apply prefix_nil.
    + rewrite iteration_literal in Hrun, Hrun' by done. simpl in Hrun, Hrun'.
      injection Hrun as <- <-. simpl.
      destruct (exhausted z _).
      * by apply for_loop_maskedValue in Hrun'.
      * by injection Hrun' as <- <-.
      * by injection Hrun' as <- <-.
  - destruct (for_loop_extend (v :: y) z mask 0 (mkVars [] 0 rules) exit st)
      as (exit' & st' & Hrun' & Hpre); [simpl; lia|done|].
    rewrite (masked_run _ _ _ _ _ Hrun'). by intros [= <-].
Qed.

(** ** The gate in general *)

Lemma some_true {A} (callback : A → nat → bool) (array : list A) index :
  some callback array index = true ↔
  ∃ j x, array !! j = Some x ∧ callback x (index + j) = true.
Proof.
  revert index. induction array as [|x array IH]; intros index; simpl.
  { split; [done|]. by intros (j & y & Hj & _). }
  rewrite orb_true_iff, IH. split.
  - intros [Hx|(j & y & Hj & Hy)].
    + exists 0, x. by rewrite Nat.add_0_r.
    + exists (S j), y. by replace (index + S j) with (S index + j) by lia.
  - intros ([|j] & y & Hj & Hy); simpl in Hj.
    + left. injection Hj as ->. by rewrite Nat.add_0_r in Hy.
    + right. exists j, y. split; [done|].
      by replace (S index + j) with (index + S j) by lia.
Qed.

(** A mask character with no entry: the gate tests the empty pattern,
    which matches. *)
Lemma mismatch_literal rules inputValue char index :
  rules !! char = None → mismatch rules inputValue char index = false.
Proof.
  intros Hnone. unfold mismatch. rewrite Hnone.
  by destruct (at_index inputValue index).
Qed.

(** The gate rejects exactly when, at some index that holds an input
    character, the mask character has a rule and the copy of that rule
    made with the flags ["g"] fails on the input character. *)
Lemma forbidden_iff mask rules inputValue :
  forbidden mask rules inputValue = true ↔
  ∃ index char inputChar R,
    mask !! index = Some char ∧ at_index inputValue index = Some inputChar ∧
    rules !! char = Some R ∧
    (RegExp.test (RegExp.new (Some R) RegExp.g) (Some inputChar)).1 = false.
Proof.
  unfold forbidden. rewrite some_true. split.
  - intros (index & char & Hchar & Hmis). simpl in Hmis.
    destruct (rules !! char) as [R|] eqn:Hrule;
      [|by rewrite mismatch_literal in Hmis].
    unfold mismatch in Hmis. rewrite Hrule in Hmis.
    destruct (at_index inputValue index) as [inputChar|] eqn:Hin; [|done].
    exists index, char, inputChar, R. by rewrite negb_true_iff in Hmis.
  - intros (index & char & inputChar & R & Hchar & Hin & Hrule & Htest).
    exists index, char. split; [done|]. simpl.
    unfold mismatch. by rewrite Hin, Hrule, Htest.
Qed.

(** A rejected value: [input.value] is set back to [this.value] and
    nothing else changes. *)
Lemma oninput_forbidden mask onmasked c :
  forbidden mask (regexps c) (input_value c) = true →
  oninput false mask onmasked c =
    Normal (mkComponent (this_value c) (this_value c) (bound c) (regexps c)).
Proof. intros Hforbidden. unfold oninput. by rewrite Hforbidden. Qed.

(** A value that the gate lets through, or any value when
    [allowunmatches] is set, goes to [applyMask]. *)
Lemma oninput_accepted allowunmatches mask c out objects :
  allowunmatches = true ∨ forbidden mask (regexps c) (input_value c) = false →
  applyMask (input_value c) mask (regexps c) = Normal (out, objects) →
  oninput allowunmatches mask None c = Normal (mkComponent out (input_value c) out objects).
Proof.
  intros Hgate Hmask. unfold oninput. rewrite Hmask. simpl.
  by destruct Hgate as [->| ->]; [|rewrite andb_false_r].
Qed.

(** On such a rule the copy of the gate answers as the rule does. *)
Lemma gate_copy_plain R inputChar :
  plain R →
  (RegExp.test (RegExp.new (Some R) RegExp.g) inputChar).1 = (RegExp.test R inputChar).1.
Proof.
  destruct R as [src fl last]. unfold plain. simpl.
  rewrite !test_matched. by intros [->|[-> ->]].
Qed.

(** With rules of the documentation, the gate rejects exactly when some
    input character fails the rule of the mask character at its index. *)
Lemma forbidden_plain mask rules inputValue :
  (∀ char R, rules !! char = Some R → plain R) →
  forbidden mask rules inputValue = true ↔
  ∃ index char inputChar R,
    mask !! index = Some char ∧ at_index inputValue index = Some inputChar ∧
    rules !! char = Some R ∧ (RegExp.test R (Some inputChar)).1 = false.
Proof.
  intros Hplain. rewrite forbidden_iff.
  split; intros (index & char & inputChar & R & Hchar & Hin & Hrule & Htest);
    exists index, char, inputChar, R; split_and!; try done.
  - by rewrite <- gate_copy_plain by eauto.
  - by rewrite gate_copy_plain by eauto.
Qed.

(** ** Idempotence outside the defects *)

(** A string [out] that holds, from the cursor on, what the mask
    positions render (the literal at a literal position, a character the
    rule accepts at a slot) is consumed character by character, and the
    loop rebuilds it. *)
Lemma for_loop_replay out rest i st :
  stateless (replacement st) →
  maskedValue st = take (rawIndex st) out →
  rawIndex st < length out →
  length out ≤ rawIndex st + length rest →
  (∀ j c, out !! (rawIndex st + j) = Some c →
          ∃ maskChar, rest !! j = Some maskChar ∧
                      (replacement st !! maskChar = None → c = maskChar) ∧
                      (∀ R, replacement st !! maskChar = Some R →
                            (RegExp.test R (Some c)).1 = true)) →
  ∃ exit st', for_loop out rest i st = Normal (exit, st') ∧ maskedValue st' = out.
Proof.
  revert i st. induction rest as [|maskChar rest IH];
    intros i st Hstateless Hmasked Hin Hlen Hpos; simpl in *; [lia|].
  destruct (lookup_lt_is_Some_2 out (rawIndex st) Hin) as [c Hc].
  destruct (Hpos 0 c) as (m & [= <-] & Hlit & Hslot); [by rewrite Nat.add_0_r|].
  (* either way the iteration appends [c] and moves the cursor by one *)
  set (st1 := mkVars (take (S (rawIndex st)) out) (S (rawIndex st)) (replacement st)).
  assert (Hit : iteration out maskChar st = Normal (exhausted out st1, st1)).
  { destruct (replacement st !! maskChar) as [R|] eqn:Hrule.
    - rewrite (iteration_slot _ _ R) by done. simpl. unfold at_index. rewrite Hc.
      rewrite (Hslot R eq_refl), test_stateless by eauto.
      rewrite insert_id by done. simpl.
      by rewrite Hmasked, <- (take_S_r _ _ _ Hc).
    - rewrite iteration_literal by done. simpl. unfold at_index. rewrite Hc.
      rewrite (Hlit eq_refl). rewrite decide_True by done.
      rewrite Hmasked, <- (take_S_r out _ maskChar); [done|].
      by rewrite Hc, (Hlit eq_refl). }
  rewrite Hit. simpl. unfold exhausted at 1. simpl.
  destruct (Nat.leb_spec (length out) (S (rawIndex st))) as [Hle|Hgt].
  - exists (InputExhausted i), st1. split; [done|]. simpl. by apply take_ge.
  - apply (IH (S i) st1); simpl; [done|done|lia|lia|].
    intros j c' Hj. destruct (Hpos (S j) c') as (m & Hm & Hl & Hs).
    { by replace (rawIndex st + S j) with (S (rawIndex st + j)) by lia. }
    by exists m.
Qed.

(** With rules that keep no state and a first slot that rejects the
    absent character, applying the mask to its own output changes
    nothing. *)
Lemma applyMask_idempotent value mask rules out :
  stateless rules →
  ¬ absent_accepted [] mask rules →
  masked value mask rules = Normal out →
  masked out mask rules = Normal out.
Proof.
  intros Hstateless Hdefect Hout.
  destruct (applyMask_rendering value mask rules out) as [Hlen Hpos]; [|done|].
  { intros [-> Hfirst]. by apply Hdefect. }
  destruct out as [|o out].
  - (* nothing was rendered: the mask is empty or starts with a slot *)
    destruct mask as [|maskChar rest]; [done|].
    destruct (rules !! maskChar) as [R|] eqn:Hrule.
    + unfold masked, applyMask, run. simpl.
      rewrite (iteration_slot _ _ R) by done. simpl.
      destruct (RegExp.test R None).1 eqn:Htest; [|done].
      destruct Hdefect. split; [done|]. by exists maskChar, rest, R.
    + destruct (for_loop_normal value (maskChar :: rest) 0 (mkVars [] 0 rules))
        as (exit & st & Hrun).
      rewrite (masked_run _ _ _ _ _ Hrun) in Hout. injection Hout as Hout.
      simpl in Hrun. rewrite iteration_literal in Hrun by done. simpl in Hrun.
      destruct (exhausted value _).
      * apply for_loop_maskedValue in Hrun as [k Hk]. simpl in Hk. by rewrite Hout in Hk.
      * injection Hrun as _ <-. done.
      * injection Hrun as _ <-. done.
  - destruct (for_loop_replay (o :: out) mask 0 (mkVars [] 0 rules))
      as (exit & st & Hrun & Hsame); simpl; [done|done|lia|done|..].
    + intros j c Hj. destruct (Hpos j c Hj) as (m & Hm & Hl & _ & Ht).
      exists m. split_and!; [done|done|by apply Ht].
    + by rewrite (masked_run _ _ _ _ _ Hrun), Hsame.
Qed.

(** * Further properties of the code *)

(** ** The output and the raw input *)

(** On a raw input that is not empty, the returned string is no longer
    than the mask; at a literal position it holds the mask's character,
    at a slot a character of the raw input. *)
Theorem output_within_mask value mask rules :
  value ≠ [] →
  ∃ out, masked value mask rules = Normal out ∧
         length out ≤ length mask ∧
         ∀ j c, out !! j = Some c →
                ∃ maskChar, mask !! j = Some maskChar ∧
                            (rules !! maskChar = None → c = maskChar) ∧
                            (is_Some (rules !! maskChar) → c ∈ value).
Proof.
  intros Hvalue.
  destruct (for_loop_normal value mask 0 (mkVars [] 0 rules)) as (exit & st & Hrun).
  exists (maskedValue st). split; [by eapply masked_run|].
  destruct (applyMask_rendering value mask rules (maskedValue st)) as [Hlen Hpos].
  - by intros [-> _].
  - by eapply masked_run.
  - split; [done|]. intros j c Hj.
    destruct (Hpos j c Hj) as (m & Hm & Hl & Hs & _). by exists m.
Qed.

Lemma output_within_mask_witness :
  ∃ out, masked (js "12ab") (js "9-9-9") date_rules = Normal out ∧
         length out ≤ 5 ∧
         ∀ j c, out !! j = Some c →
                ∃ maskChar, js "9-9-9" !! j = Some maskChar ∧
                            (date_rules !! maskChar = None → c = maskChar) ∧
                            (is_Some (date_rules !! maskChar) → c ∈ js "12ab").
Proof. apply (output_within_mask (js "12ab") (js "9-9-9") date_rules). vm_compute. discriminate. Defined.

(** The slot characters only change with the keys of the mapping. *)
Lemma slot_chars_keys rules rules' mask out :
  (∀ key, rules' !! key = None ↔ rules !! key = None) →
  slot_chars rules' mask out = slot_chars rules mask out.
Proof.
  intros Hkeys. revert out. induction mask as [|m mask IH]; intros [|c out]; simpl; try done.
  rewrite IH. specialize (Hkeys m).
  destruct (rules !! m), (rules' !! m); try done.
  - by pose proof (proj1 Hkeys eq_refl).
  - by pose proof (proj2 Hkeys eq_refl).
Qed.

(** The characters the loop puts at slots are read from the raw input
    from the cursor on, in order. *)
Lemma for_loop_slot_chars value rest i st exit st' :
  rawIndex st < length value →
  for_loop value rest i st = Normal (exit, st') →
  ∃ added, maskedValue st' = maskedValue st ++ added ∧
           slot_chars (replacement st) rest added
             `sublist_of` drop (rawIndex st) value.
Proof.
  revert i st. induction rest as [|maskChar rest IH]; intros i st Hin; simpl.
  { intros [= <- <-]. exists []. rewrite app_nil_r. split; [done|apply sublist_nil_l]. }
  destruct (iteration value maskChar st) as [[flow st1]|e] eqn:Hit; simpl; [|done].
  pose proof (λ key, iteration_keys _ _ _ _ _ key Hit) as Hkeys.
  pose proof (iteration_flow _ _ _ _ _ Hit) as Hflow.
  destruct (lookup_lt_is_Some_2 value (rawIndex st) Hin) as [c Hc].
  (* what the iteration appends, and the part of the raw input left for
     the positions that follow *)
  assert (Hstep : (flow = BreakRejected ∧ maskedValue st1 = maskedValue st) ∨
            (flow ≠ BreakRejected ∧ ∃ a, maskedValue st1 = maskedValue st ++ [a] ∧
              ∀ l, l `sublist_of` drop (rawIndex st1) value →
                   match replacement st !! maskChar with
                   | Some _ => a :: l
                   | None => l
                   end `sublist_of` drop (rawIndex st) value)).
  { revert Hit. slot_or_literal value maskChar st R Hrule.
    - unfold at_index. rewrite Hc.
      destruct (RegExp.test R _).1; intros [= <- <-]; simpl; [|by left].
      right. split; [unfold exhausted; by destruct (_ <=? _)|].
      exists c. split; [done|]. intros l Hl.
      rewrite (drop_S _ _ _ Hc). by apply sublist_skip.
    - intros [= <- <-]. simpl.
      right. split; [unfold exhausted; by destruct (_ <=? _)|].
      exists maskChar. split; [done|]. intros l Hl.
      case_decide; [|done].
      etrans; [done|]. rewrite (drop_S _ _ _ Hc). apply sublist_cons, reflexivity. }
  destruct Hstep as [[-> Hsame]|[Hne (a & Hadd & Hsub)]].
  { intros [= <- <-]. exists []. rewrite app_nil_r. split; [done|apply sublist_nil_l]. }
  destruct flow; [|done|].
  - intros Hrest. destruct (IH _ _ Hflow Hrest) as (added & Hout & Hslots).
    exists (a :: added). rewrite Hout, Hadd, <- app_assoc. split; [done|]. simpl.
    rewrite (slot_chars_keys _ _ _ _ Hkeys) in Hslots. by apply Hsub.
  - intros [= <- <-]. exists [a]. split; [done|]. simpl.
    replace (slot_chars (replacement st) rest []) with (@nil N) by by destruct rest.
    apply Hsub, sublist_nil_l.
Qed.

(** On a raw input that is not empty, the characters of the returned
    string that sit at slots are characters of the raw input in the
    order of the raw input: the mask drops characters, it neither
    reorders nor invents them. *)
Theorem slot_characters_in_order value mask rules :
  value ≠ [] →
  ∃ out, masked value mask rules = Normal out ∧
         slot_chars rules mask out `sublist_of` value.
Proof.
  intros Hvalue.
  destruct (for_loop_normal value mask 0 (mkVars [] 0 rules)) as (exit & st & Hrun).
  exists (maskedValue st). split; [by eapply masked_run|].
  destruct (for_loop_slot_chars value mask 0 (mkVars [] 0 rules) exit st)
    as (added & Hout & Hsub); [|done|].
  - simpl. destruct value; [done|simpl; lia].
  - simpl in *. by rewrite Hout.
Qed.

Lemma slot_characters_in_order_witness :
  ∃ out, masked (js "1/2x3") (js "9/9-9") date_rules = Normal out ∧
         slot_chars date_rules (js "9/9-9") out `sublist_of` js "1/2x3".
Proof. apply (slot_characters_in_order (js "1/2x3")). vm_compute. discriminate. Defined.

(** Extending a raw input that is not empty extends the returned string
    or leaves it as it is: what was rendered is never changed. *)
Theorem output_grows_with_input y z mask rules :
  y ≠ [] →
  ∃ out_y out_x, masked y mask rules = Normal out_y ∧
                 masked (y ++ z) mask rules = Normal out_x ∧
                 out_y `prefix_of` out_x.
Proof.
  intros Hy.
  destruct (for_loop_normal y mask 0 (mkVars [] 0 rules)) as (exit & st & Hrun).
  destruct (for_loop_normal (y ++ z) mask 0 (mkVars [] 0 rules)) as (exit' & st' & Hrun').
  exists (maskedValue st), (maskedValue st').
  pose proof (masked_run _ _ _ _ _ Hrun) as Hout.
  pose proof (masked_run _ _ _ _ _ Hrun') as Hout'.
  split_and!; [done|done|].
  eapply (applyMask_prefix_monotone y (y ++ z)); [|by apply prefix_app_r|done|done].
  by intros [-> _].
Qed.

Lemma output_grows_with_input_witness :
  ∃ out_y out_x, masked (js "01") (js "99/99") date_rules = Normal out_y ∧
                 masked (js "01" ++ js "2") (js "99/99") date_rules = Normal out_x ∧
                 out_y `prefix_of` out_x.
Proof. apply (output_grows_with_input (js "01") (js "2")). vm_compute. discriminate. Defined.

(** With rules that carry no [g] and no [y] flag, and a mask that does
    not start with a slot whose rule matches the string ["undefined"],
    a returned string is returned as it is when the mask is applied to
    it again. *)
Theorem output_is_fixed_point value mask rules :
  stateless rules →
  ¬ absent_accepted [] mask rules →
  ∃ out, masked value mask rules = Normal out ∧
         masked out mask rules = Normal out.
Proof.
  intros Hstateless Hdefect.
  destruct (for_loop_normal value mask 0 (mkVars [] 0 rules)) as (exit & st & Hrun).
  exists (maskedValue st).
  pose proof (masked_run _ _ _ _ _ Hrun) as Hout. split; [done|].
  by eapply applyMask_idempotent.
Qed.

Lemma output_is_fixed_point_witness :
  ∃ out, masked (js "0101x") (js "99/99/9999") date_rules = Normal out ∧
         masked out (js "99/99/9999") date_rules = Normal out.
Proof.
  apply (output_is_fixed_point (js "0101x") (js "99/99/9999") date_rules).
  - intros char R HR. unfold date_rules in HR.
    apply lookup_singleton_Some in HR as [_ <-]. reflexivity.
  - intros [_ (maskChar & rest & R & Hmask & HR & Htest)].
    injection Hmask as <- <-. vm_compute in HR. injection HR as <-.
    vm_compute in Htest. discriminate.
Defined.

(** ** Raw input longer than the mask *)

(** Every mask position consumes at most one raw character, so with [n]
    at least the cursor plus the number of positions left, the raw
    characters from index [n] on are not read; only the test of line
    188 sees that they exist, and it changes nothing of the output. *)
Lemma for_loop_take value rest i st exit st' n :
  rawIndex st + length rest ≤ n →
  for_loop value rest i st = Normal (exit, st') →
  ∃ exit'' st'', for_loop (take n value) rest i st = Normal (exit'', st'') ∧
                 maskedValue st'' = maskedValue st'.
Proof.
  revert i st. induction rest as [|maskChar rest IH]; intros i st Hn; simpl.
  { intros [= <- <-]. by eauto. }
  simpl in Hn.
  assert (Hchar : at_index (take n value) (rawIndex st) = at_index value (rawIndex st))
    by (apply lookup_take_lt; lia).
  destruct (iteration value maskChar st) as [[flow st1]|e] eqn:Hit; simpl; [|done].
  pose proof (iteration_rawIndex _ _ _ _ _ Hit) as Hraw.
  assert (Hit' : iteration (take n value) maskChar st =
                 Normal (match flow with
                         | BreakRejected => BreakRejected
                         | _ => exhausted (take n value) st1
                         end, st1)).
  { revert Hit. slot_or_literal value maskChar st R Hrule.
    - rewrite (iteration_slot (take n value) _ R) by done. simpl. rewrite Hchar.
      destruct (RegExp.test R _).1; intros [= <- <-]; [|done].
      unfold exhausted at 2. by destruct (_ <=? _).
    - rewrite (iteration_literal (take n value)) by done. simpl. rewrite Hchar.
      intros [= <- <-]. unfold exhausted at 2. by destruct (_ <=? _). }
  rewrite Hit'. simpl.
  pose proof (iteration_flow _ _ _ _ _ Hit) as Hflow.
  pose proof (exhausted_flow (take n value) st1) as Hflow'.
  rewrite length_take in Hflow'.
  destruct flow.
  - intros Hrest. destruct (exhausted (take n value) st1).
    + apply (IH (S i) st1); [lia|done].
    + done.
    + (* the shorter input ends here, and no mask position is left *)
      assert (rest = []) as -> by (destruct rest; [done|simpl in *; lia]).
      simpl in Hrest. injection Hrest as <- <-. by eauto.
  - intros [= <- <-]. by eauto.
  - intros [= <- <-]. destruct (exhausted (take n value) st1); [lia|done|by eauto].
Qed.

Lemma masked_take_mask value mask rules :
  masked (take (length mask) value) mask rules = masked value mask rules.
Proof.
  destruct (for_loop_normal value mask 0 (mkVars [] 0 rules)) as (exit & st & Hrun).
  destruct (for_loop_take value mask 0 (mkVars [] 0 rules) exit st (length mask))
    as (exit' & st' & Hrun' & Hsame); [simpl; lia|done|].
  by rewrite (masked_run _ _ _ _ _ Hrun), (masked_run _ _ _ _ _ Hrun'), Hsame.
Qed.

(** The raw characters beyond the length of the mask never change the
    returned string: an overlong raw input gives what its first
    [mask.length] characters give. *)
Theorem overlong_input_is_cut value mask rules :
  masked value mask rules = masked (take (length mask) value) mask rules.
Proof. by rewrite masked_take_mask. Qed.

(** ** More on the gate *)

(** The gate rejects a raw value exactly when, at some index below both
    lengths, the mask character has a rule and the input character fails
    the copy of that rule that line 130 makes: the same pattern, the
    flags ["g"] alone, [lastIndex] 0.  Mask characters with no rule are
    not looked at. *)
Theorem gate_rejects_iff mask rules inputValue :
  forbidden mask rules inputValue = true ↔
  ∃ index char inputChar R,
    index < length mask ∧ index < length inputValue ∧
    mask !! index = Some char ∧ at_index inputValue index = Some inputChar ∧
    rules !! char = Some R ∧
    (RegExp.test (RegExp.mk (RegExp.source R) RegExp.g 0) (Some inputChar)).1 = false.
Proof.
  rewrite forbidden_iff. split.
  - intros (index & char & inputChar & R & Hchar & Hin & HR & Htest).
    exists index, char, inputChar, R. split_and!; try done.
    + by eapply lookup_lt_Some.
    + by eapply lookup_lt_Some.
  - intros (index & char & inputChar & R & _ & _ & Hchar & Hin & HR & Htest).
    by exists index, char, inputChar, R.
Qed.

(** [some] with callbacks that agree on the array. *)
Lemma some_ext {A} (f f' : A → nat → bool) (array : list A) index :
  (∀ j x, array !! j = Some x → f x (index + j) = f' x (index + j)) →
  some f array index = some f' array index.
Proof.
  revert index. induction array as [|x array IH]; intros index Hext; simpl; [done|].
  rewrite (IH (S index)).
  - f_equal. specialize (Hext 0 x eq_refl). by rewrite Nat.add_0_r in Hext.
  - intros j y Hj. specialize (Hext (S j) y Hj).
    by replace (index + S j) with (S index + j) in Hext by lia.
Qed.

Lemma forbidden_same_sources mask rules rules' inputValue :
  same_sources rules rules' →
  forbidden mask rules inputValue = forbidden mask rules' inputValue.
Proof.
  intros Hsame. unfold forbidden. apply some_ext. intros j char _.
  unfold mismatch. specialize (Hsame char).
  destruct (rules !! char) as [R|], (rules' !! char) as [R'|]; simplify_eq/=; try done.
  by rewrite Hsame.
Qed.

(** [test] changes [lastIndex] at most, and the loop only stores what
    [test] hands back. *)
Lemma test_source R inputChar :
  RegExp.source (RegExp.test R inputChar).2 = RegExp.source R.
Proof.
  unfold RegExp.test, RegExp.exec.
  by destruct (RegExp.first_match _ _ _), (RegExp.stateful R).
Qed.

Lemma iteration_sources value maskChar st flow st' :
  iteration value maskChar st = Normal (flow, st') →
  same_sources (replacement st') (replacement st).
Proof.
  slot_or_literal value maskChar st R Hrule; [|by intros [= <- <-]].
  assert (Hins : same_sources
            (<[maskChar:=(RegExp.test R (at_index value (rawIndex st))).2]> (replacement st))
            (replacement st)).
  { intros char. destruct (decide (maskChar = char)) as [<-|Hne].
    - rewrite lookup_insert_eq, Hrule. simpl. by rewrite test_source.
    - by rewrite lookup_insert_ne. }
  by destruct (RegExp.test R _).1; intros [= <- <-].
Qed.

Lemma for_loop_sources value rest i st exit st' :
  for_loop value rest i st = Normal (exit, st') →
  same_sources (replacement st') (replacement st).
Proof.
  revert i st. induction rest as [|maskChar rest IH]; intros i st; simpl.
  { by intros [= <- <-]. }
  destruct (iteration value maskChar st) as [[flow st1]|e] eqn:Hit; simpl; [|done].
  apply iteration_sources in Hit.
  destruct flow; [|by intros [= <- <-]..].
  intros Hrest%IH char. by rewrite Hrest, Hit.
Qed.

(** The gate reads the pattern text of a rule and nothing else of it:
    two mappings with the same pattern under each key reject the same
    values, whatever the flags and [lastIndex] of their rules are.  In
    particular the [lastIndex] that a call of [applyMask] leaves in a
    rule does not change what the gate rejects. *)
Theorem gate_reads_pattern_only mask rules rules' inputValue :
  same_sources rules rules' →
  forbidden mask rules inputValue = forbidden mask rules' inputValue ∧
  ∀ value mask' out objects,
    applyMask value mask' rules = Normal (out, objects) →
    forbidden mask objects inputValue = forbidden mask rules inputValue.
Proof.
  intros Hsame. split; [by apply forbidden_same_sources|].
  intros value mask' out objects Hmask. apply forbidden_same_sources.
  unfold applyMask in Hmask.
  destruct (run value mask' rules) as [[exit st]|e] eqn:Hrun; [|done].
  simpl in Hmask. injection Hmask as _ <-.
  by apply for_loop_sources in Hrun.
Qed.

Lemma gate_reads_pattern_only_witness :
  forbidden (js "99") readme_rules (js "1a") = forbidden (js "99") date_rules (js "1a") ∧
  ∃ out objects,
    applyMask (js "12") (js "99") readme_rules = Normal (out, objects) ∧
    forbidden (js "99") objects (js "1a") = forbidden (js "99") readme_rules (js "1a").
Proof.
  destruct (gate_reads_pattern_only (js "99") readme_rules date_rules (js "1a"))
    as [Hgate Hafter].
  - intros char. unfold readme_rules, date_rules.
    destruct (decide (char = 57%N)) as [->|Hne].
    + by rewrite !lookup_singleton_eq.
    + by rewrite !lookup_singleton_ne.
  - split; [exact Hgate|].
    destruct (applyMask (js "12") (js "99") readme_rules) as [[out objects]|e] eqn:Hmask.
    + exists out, objects. split; [reflexivity|]. exact (Hafter _ _ _ _ Hmask).
    + vm_compute in Hmask. discriminate.
Defined.

Lemma forbidden_nil mask rules : forbidden mask rules [] = false.
Proof.
  destruct (forbidden mask rules []) eqn:Hgate; [|done].
  apply forbidden_iff in Hgate as (index & char & inputChar & R & _ & Hin & _).
  by destruct index.
Qed.

(** The gate looks at no input character at or beyond the length of the
    mask, and it lets the empty value through. *)
Theorem gate_ignores_overflow mask rules inputValue :
  forbidden mask rules inputValue
    = forbidden mask rules (take (length mask) inputValue) ∧
  forbidden mask rules [] = false.
Proof.
  split.
  - unfold forbidden. apply some_ext. intros j char Hj. simpl.
    unfold mismatch, at_index. rewrite lookup_take_lt; [done|].
    by eapply lookup_lt_Some.
  - apply forbidden_nil.
Qed.

(** ** The gate and the mask together *)

Lemma flagless_stateless rules : flagless rules → stateless rules.
Proof.
  intros Hflagless char R HR. unfold RegExp.stateful.
  by rewrite (Hflagless char R HR).
Qed.

Lemma flagless_plain rules char R : flagless rules → rules !! char = Some R → plain R.
Proof. intros Hflagless HR. left. by eapply Hflagless. Qed.

Lemma for_loop_stateless value rest i st exit st' :
  stateless (replacement st) →
  for_loop value rest i st = Normal (exit, st') →
  replacement st' = replacement st.
Proof.
  revert i st. induction rest as [|maskChar rest IH]; intros i st Hstateless; simpl.
  { by intros [= <- <-]. }
  destruct (iteration value maskChar st) as [[flow st1]|e] eqn:Hit; simpl; [|done].
  pose proof (iteration_stateless _ _ _ _ _ Hstateless Hit) as Hsame.
  destruct flow; [|by intros [= <- <-]..].
  intros Hrest. rewrite <- Hsame. apply (IH _ _ ltac:(by rewrite Hsame) Hrest).
Qed.

(** With rules without flags, the gate lets through every string that
    the mask renders from a raw input outside the defect. *)
Lemma rendered_passes_gate value mask rules out :
  flagless rules →
  ¬ absent_accepted value mask rules →
  masked value mask rules = Normal out →
  forbidden mask rules out = false.
Proof.
  intros Hflagless Hdefect Hout.
  destruct (applyMask_rendering value mask rules out Hdefect Hout) as [_ Hpos].
  destruct (forbidden mask rules out) eqn:Hgate; [|done].
  apply forbidden_plain in Hgate; [|by intros; eapply flagless_plain].
  destruct Hgate as (index & char & inputChar & R & Hchar & Hin & HR & Htest).
  destruct (Hpos index inputChar Hin) as (m & Hm & _ & _ & Haccepted).
  rewrite Hchar in Hm. injection Hm as <-.
  rewrite (Haccepted (flagless_stateless _ Hflagless) R HR) in Htest. done.
Qed.

(** With rules without flags, the gate lets through a string that the
    mask returns as it is. *)
Lemma fixed_point_passes_gate mask rules out :
  flagless rules →
  masked out mask rules = Normal out →
  forbidden mask rules out = false.
Proof.
  intros Hflagless Hout. destruct out as [|o out]; [apply forbidden_nil|].
  eapply rendered_passes_gate; [done| |done]. by intros [? _].
Qed.

(** With rules without flags, what the mask returns for a raw input that
    is not empty passes the gate: the strict mode never rejects a value
    for characters that the mask itself put there. *)
Theorem output_passes_gate value mask rules :
  flagless rules →
  value ≠ [] →
  ∃ out, masked value mask rules = Normal out ∧ forbidden mask rules out = false.
Proof.
  intros Hflagless Hvalue.
  destruct (for_loop_normal value mask 0 (mkVars [] 0 rules)) as (exit & st & Hrun).
  exists (maskedValue st).
  pose proof (masked_run _ _ _ _ _ Hrun) as Hout. split; [done|].
  eapply rendered_passes_gate; [done| |done]. by intros [-> _].
Qed.

Lemma output_passes_gate_witness :
  ∃ out, masked (js "0101") (js "99/99/9999") date_rules = Normal out ∧
         forbidden (js "99/99/9999") date_rules out = false.
Proof.
  apply (output_passes_gate (js "0101") (js "99/99/9999") date_rules).
  - intros char R HR. unfold date_rules in HR.
    apply lookup_singleton_Some in HR as [_ <-]. reflexivity.
  - vm_compute. discriminate.
Defined.

(** On a mask made of slot markers only, with rules without flags, the
    gate and the mask agree: the gate lets a raw value through exactly
    when the mask returns it unchanged, cut at the length of the mask. *)
Theorem gate_agrees_on_slot_masks value mask rules :
  flagless rules →
  slots rules mask →
  value ≠ [] →
  forbidden mask rules value = false ↔
  masked value mask rules = Normal (take (length mask) value).
Proof.
  intros Hflagless Hslots Hvalue.
  pose proof (flagless_stateless _ Hflagless) as Hstateless.
  rewrite <- (masked_take_mask value mask rules).
  set (out := take (length mask) value).
  assert (Hgate : forbidden mask rules value = forbidden mask rules out).
  { unfold forbidden. apply some_ext. intros j char Hj. simpl.
    unfold mismatch, at_index, out. rewrite lookup_take_lt; [done|].
    by eapply lookup_lt_Some. }
  rewrite Hgate. split.
  - intros Hpass. destruct out as [|o out'] eqn:Hout.
    { destruct mask; [done|]. by destruct value. }
    rewrite <- Hout.
    destruct (for_loop_replay out mask 0 (mkVars [] 0 rules))
      as (exit & st & Hrun & Hsame); simpl.
    + done.
    + done.
    + rewrite Hout. simpl. lia.
    + unfold out. rewrite length_take. lia.
    + intros j c Hj.
      assert (j < length mask) as Hlt.
      { apply lookup_lt_Some in Hj. unfold out in Hj. rewrite length_take in Hj. lia. }
      destruct (lookup_lt_is_Some_2 mask j Hlt) as [m Hm].
      exists m. split; [done|].
      pose proof (proj1 (Forall_lookup _ _) Hslots j m Hm) as [R HR].
      split; [by rewrite HR|]. intros R' [= <-]%(eq_trans (eq_sym HR)).
      destruct (RegExp.test R (Some c)).1 eqn:Htest; [done|].
      assert (forbidden mask rules out = true) as Hforbidden.
      { apply forbidden_plain; [by intros; eapply flagless_plain|].
        by exists j, m, c, R. }
      rewrite Hout in Hforbidden. congruence.
    + by rewrite (masked_run _ _ _ _ _ Hrun), Hsame.
  - intros Hout. by eapply fixed_point_passes_gate.
Qed.

Lemma gate_agrees_on_slot_masks_witness :
  forbidden (js "999") date_rules (js "12345") = false ↔
  masked (js "12345") (js "999") date_rules = Normal (take 3 (js "12345")).
Proof.
  apply (gate_agrees_on_slot_masks (js "12345") (js "999") date_rules).
  - intros char R HR. unfold date_rules in HR.
    apply lookup_singleton_Some in HR as [_ <-]. reflexivity.
  - unfold slots, js. simpl. repeat constructor; by eexists.
  - vm_compute. discriminate.
Defined.

(** ** The handler *)

(** In strict mode, with rules without flags and no [onmasked] callback,
    an event whose raw value is a string that the mask returns as it is
    gets through the gate and ends with that string in [this.value] and
    in the bound property, the rules untouched. *)
Theorem oninput_keeps_fixed_point mask c :
  flagless (regexps c) →
  masked (input_value c) mask (regexps c) = Normal (input_value c) →
  oninput false mask None c =
    Normal (mkComponent (input_value c) (input_value c) (input_value c) (regexps c)).
Proof.
  intros Hflagless Hfixed.
  pose proof (fixed_point_passes_gate _ _ _ Hflagless Hfixed) as Hgate.
  destruct (for_loop_normal (input_value c) mask 0 (mkVars [] 0 (regexps c)))
    as (exit & st & Hrun).
  pose proof (for_loop_stateless (input_value c) mask 0 (mkVars [] 0 (regexps c)) exit st
                (flagless_stateless _ Hflagless) Hrun) as Hobjects.
  rewrite (masked_run _ _ _ _ _ Hrun) in Hfixed. injection Hfixed as Hfixed.
  apply oninput_accepted; [by right|].
  unfold applyMask. fold (run (input_value c) mask (regexps c)) in Hrun.
  rewrite Hrun. simpl. unfold returned. by rewrite Hfixed, Hobjects.
Qed.

Lemma oninput_keeps_fixed_point_witness :
  oninput false (js "99/99") None (mkComponent (js "01") (js "01/0") (js "01") date_rules)
  = Normal (mkComponent (js "01/0") (js "01/0") (js "01/0") date_rules).
Proof.
  apply (oninput_keeps_fixed_point (js "99/99")
           (mkComponent (js "01") (js "01/0") (js "01") date_rules)).
  - intros char R HR. simpl in HR. unfold date_rules in HR.
    apply lookup_singleton_Some in HR as [_ <-]. reflexivity.
  - vm_compute. reflexivity.
Defined.



(** ** Typing one more character *)

(** Mask positions that the raw input satisfies one by one (the literal
    itself at a literal, a character that the rule accepts at a slot),
    with raw characters left after them: each consumes one character and
    the loop goes past them. *)
Lemma for_loop_consume value seg i st :
  stateless (replacement st) →
  maskedValue st = take (rawIndex st) value →
  rawIndex st + length seg < length value →
  (∀ j m, seg !! j = Some m →
          ∃ c, value !! (rawIndex st + j) = Some c ∧
               (replacement st !! m = None → c = m) ∧
               (∀ R, replacement st !! m = Some R → (RegExp.test R (Some c)).1 = true)) →
  for_loop value seg i st =
    Normal (MaskEnd, mkVars (take (rawIndex st + length seg) value)
                            (rawIndex st + length seg) (replacement st)).
Proof.
  revert i st. induction seg as [|maskChar seg IH];
    intros i st Hstateless Hmasked Hlen Hpos; simpl in *.
  { rewrite Nat.add_0_r, <- Hmasked. by destruct st. }
  destruct (Hpos 0 maskChar eq_refl) as (c & Hc & Hlit & Hslot).
  rewrite Nat.add_0_r in Hc.
  set (st1 := mkVars (take (S (rawIndex st)) value) (S (rawIndex st)) (replacement st)).
  assert (Hit : iteration value maskChar st = Normal (Next, st1)).
  { assert (exhausted value st1 = Next) as <-.
    { unfold exhausted. simpl. destruct (Nat.leb_spec (length value) (S (rawIndex st))); [lia|done]. }
    slot_or_literal value maskChar st R Hrule.
    - unfold at_index. rewrite Hc.
      rewrite (Hslot R eq_refl), test_stateless by eauto.
      rewrite insert_id by done. simpl.
      by rewrite Hmasked, <- (take_S_r _ _ _ Hc).
    - unfold at_index. rewrite Hc, (Hlit eq_refl), decide_True by done.
      rewrite Hmasked, <- (take_S_r value _ maskChar); [done|].
      by rewrite Hc, (Hlit eq_refl). }
  rewrite Hit. simpl.
  rewrite (IH (S i) st1); simpl; [|done|done|lia|].
  - by replace (S (rawIndex st + length seg)) with (rawIndex st + S (length seg)) by lia.
  - intros j m Hm. destruct (Hpos (S j) m Hm) as (c' & Hc' & Hl & Hs).
    exists c'. split; [|done].
    by replace (S (rawIndex st + j)) with (rawIndex st + S j) by lia.
Qed.

(** Literals that differ from the raw character at the cursor are
    appended and leave the cursor where it is. *)
Lemma for_loop_skip_literals value lits i st c :
  literals (replacement st) lits →
  at_index value (rawIndex st) = Some c →
  c ∉ lits →
  for_loop value lits i st =
    Normal (MaskEnd, mkVars (maskedValue st ++ lits) (rawIndex st) (replacement st)).
Proof.
  revert i st. induction lits as [|l lits IH]; intros i st Hlits Hc Hnotin; simpl.
  { rewrite app_nil_r. by destruct st. }
  apply Forall_cons in Hlits as [Hl Hlits].
  apply not_elem_of_cons in Hnotin as [Hne Hnotin].
  rewrite iteration_literal by done. simpl.
  rewrite Hc, decide_False by congruence.
  unfold exhausted. simpl.
  destruct (Nat.leb_spec (length value) (rawIndex st)) as [Hle|_].
  { apply lookup_lt_Some in Hc. lia. }
  rewrite (IH (S i)); simpl; [|done..]. by rewrite <- app_assoc.
Qed.

(** What typing does.  Let [out] be a string that the mask returns as it
    is, say the value on display, and let the mask go on after it with
    the literals [lits] and then a slot.  With rules that carry no [g]
    and no [y] flag, appending one character [c] that is none of these
    literals gives [out], the literals, and [c] when the rule of the
    slot accepts it; when the rule fails on it, the literals are
    rendered all the same and [c] is dropped. *)
Theorem typing_appends_separators out mask rules lits slot rest c R :
  stateless rules →
  masked out mask rules = Normal out →
  drop (length out) mask = lits ++ slot :: rest →
  literals rules lits →
  c ∉ lits →
  rules !! slot = Some R →
  masked (out ++ [c]) mask rules =
    Normal (if (RegExp.test R (Some c)).1 then out ++ lits ++ [c] else out ++ lits).
Proof.
  intros Hstateless Hfixed Hdrop Hlits Hnotin HR.
  assert (Hlen : length out < length mask).
  { apply (f_equal length) in Hdrop. rewrite length_drop, length_app in Hdrop.
    simpl in Hdrop. lia. }
  (* the positions below [length out] consume [out] *)
  assert (Hhead : for_loop (out ++ [c]) (take (length out) mask) 0 (mkVars [] 0 rules)
                  = Normal (MaskEnd, mkVars out (length out) rules)).
  { rewrite (for_loop_consume (out ++ [c]) (take (length out) mask) 0 (mkVars [] 0 rules));
      simpl; [|done|done|..].
    - by rewrite length_take_le, take_app_length by lia.
    - rewrite length_take_le, length_app by lia. simpl. lia.
    - intros j m [Hm Hj]%lookup_take_Some.
      destruct (lookup_lt_is_Some_2 out j Hj) as [c' Hc'].
      exists c'. split; [by rewrite lookup_app_l|].
      destruct (applyMask_rendering out mask rules out) as [_ Hpos]; [|done|].
      { intros [-> _]. simpl in Hj. lia. }
      destruct (Hpos j c' Hc') as (m' & Hm' & Hl & _ & Ht).
      rewrite Hm in Hm'. injection Hm' as <-. split; [done|]. by apply Ht. }
  assert (Hc : at_index (out ++ [c]) (length out) = Some c)
    by (unfold at_index; by rewrite list_lookup_middle).
  unfold masked, applyMask, run.
  rewrite <- (take_drop (length out) mask) at 1. rewrite Hdrop.
  rewrite for_loop_app, Hhead. simpl.
  rewrite for_loop_app.
  rewrite (for_loop_skip_literals (out ++ [c]) lits _ _ c); simpl; [|done..].
  rewrite (iteration_slot _ _ R) by done. simpl. rewrite Hc.
  rewrite test_stateless by eauto. rewrite insert_id by done.
  destruct (RegExp.test R (Some c)).1; simpl.
  - unfold exhausted. simpl. rewrite length_app. simpl.
    destruct (Nat.leb_spec (length out + 1) (S (length out))); [|lia].
    simpl. by rewrite <- app_assoc.
  - done.
Qed.

Lemma typing_appends_separators_witness :
  masked (js "01" ++ [50%N]) (js "99/99") date_rules =
    Normal (if (RegExp.test (RegExp.literal RegExp.digit RegExp.no_flags) (Some 50%N)).1
            then js "01" ++ js "/" ++ [50%N] else js "01" ++ js "/").
Proof.
  apply (typing_appends_separators (js "01") (js "99/99") date_rules (js "/") 57%N (js "9")).
  - intros char R HR. unfold date_rules in HR.
    apply lookup_singleton_Some in HR as [_ <-]. reflexivity.
  - vm_compute. reflexivity.
  - reflexivity.
  - unfold literals, js. simpl. repeat constructor.
  - unfold js. simpl. rewrite not_elem_of_cons. split; [discriminate|apply not_elem_of_nil].
  - reflexivity.
Defined.

(** ** A rule with the [g] flag *)

(** A character class with the [g] flag, tested on one character from
    [lastIndex] 0: it leaves [lastIndex] 1 when it matches. *)
Lemma test_global_class R c :
  global_class R →
  ∃ b : bool,
    RegExp.test R (Some c) = (b, RegExp.set_lastIndex (if b then 1 else 0) R).
Proof.
  destruct R as [src fl last]. intros ([member Hsrc] & Hg & Hy & Hlast).
  simpl in *. subst src last.
  unfold RegExp.test, RegExp.exec, RegExp.candidates, RegExp.stateful. simpl.
  rewrite Hg, Hy. simpl. unfold RegExp.compile, RegExp.class. simpl.
  destruct (member (RegExp.ignoreCase fl) c); simpl; [by exists true|by exists false].
Qed.

(** From [lastIndex] 1 it finds nothing in a string of one character. *)
Lemma test_global_class_again R c :
  global_class R →
  (RegExp.test (RegExp.set_lastIndex 1 R) (Some c)).1 = false.
Proof.
  destruct R as [src fl last]. intros ([member Hsrc] & Hg & Hy & Hlast).
  simpl in *. subst src last. rewrite test_matched.
  unfold RegExp.candidates, RegExp.stateful, RegExp.set_lastIndex. simpl.
  rewrite Hg, Hy. simpl. by unfold RegExp.compile, RegExp.class.
Qed.

(** At a position the loop gets to after the first, or from a raw input
    that is not empty, the cursor is inside the raw input. *)
Lemma for_loop_MaskEnd_inside value rest i st st' :
  rawIndex st < length value →
  for_loop value rest i st = Normal (MaskEnd, st') →
  rawIndex st' < length value.
Proof.
  intros Hin Hrun. by destruct (for_loop_stop _ _ _ _ _ _ Hrun) as [[_ ->]|?].
Qed.

(** Literals leave the RegExp objects alone. *)
Lemma for_loop_literals_objects value lits i st exit st' :
  literals (replacement st) lits →
  for_loop value lits i st = Normal (exit, st') →
  replacement st' = replacement st.
Proof.
  revert i st. induction lits as [|l lits IH]; intros i st Hlits; simpl.
  { by intros [= <- <-]. }
  apply Forall_cons in Hlits as [Hl Hlits].
  rewrite iteration_literal by done. simpl.
  destruct (exhausted value _); [|by intros [= <- <-]..].
  intros Hrest.
  match type of Hrest with
  | for_loop _ _ ?i' ?s = _ => by rewrite (IH i' s Hlits Hrest)
  end.
Qed.

(** The loop over a mask that holds the slot marker [k] once, between
    literals: when it goes past all of it, the rule of [k] has
    [lastIndex] 1. *)
Lemma for_loop_arms_global_class value lits1 lits2 k R st st' :
  replacement st !! k = Some R →
  global_class R →
  literals (replacement st) lits1 →
  literals (replacement st) lits2 →
  rawIndex st < length value →
  for_loop value (lits1 ++ k :: lits2) 0 st = Normal (MaskEnd, st') →
  replacement st' !! k = Some (RegExp.set_lastIndex 1 R) ∧
  rawIndex st' < length value.
Proof.
  intros HR Hclass Hlits1 Hlits2 Hin Hrun.
  split; [|by eapply for_loop_MaskEnd_inside].
  rewrite for_loop_app in Hrun.
  destruct (for_loop value lits1 0 st) as [[exit1 st1]|e] eqn:Hrun1; [|done].
  simpl in Hrun. destruct exit1; [done|done|].
  pose proof (for_loop_literals_objects _ _ _ _ _ _ Hlits1 Hrun1) as Hsame1.
  pose proof (for_loop_MaskEnd_inside _ _ _ _ _ Hin Hrun1) as Hin1.
  destruct (lookup_lt_is_Some_2 value (rawIndex st1) Hin1) as [c Hc].
  simpl in Hrun. rewrite (iteration_slot _ _ R) in Hrun by by rewrite Hsame1.
  simpl in Hrun. unfold at_index in Hrun. rewrite Hc in Hrun.
  destruct (test_global_class R c Hclass) as [b Htest]. rewrite Htest in Hrun.
  destruct b; simpl in Hrun; [|done].
  destruct (exhausted value _); [|done..].
  apply for_loop_literals_objects in Hrun.
  - rewrite Hrun. simpl. by rewrite lookup_insert_eq.
  - simpl. rewrite Hsame1. eapply Forall_impl; [exact Hlits2|].
    intros l Hl. simpl in Hl. rewrite lookup_insert_ne; [done|].
    intros ->. congruence.
Qed.

(** With a rule like the [/\d/g] of the README, [test] keeps its place in
    [lastIndex] from one slot to the next, and the second slot of that
    rule rejects whatever character it is given.  On a mask that holds
    the marker of such a rule twice, with only literals before and
    between, a raw input that is not empty never gets more than the
    characters up to the second marker: one raw character and the
    literals around it. *)
Theorem global_rule_keeps_one_character value lits1 lits2 k rest rules R :
  rules !! k = Some R →
  global_class R →
  literals rules lits1 →
  literals rules lits2 →
  value ≠ [] →
  ∃ out, masked value (lits1 ++ k :: lits2 ++ k :: rest) rules = Normal out ∧
         length out ≤ length lits1 + 1 + length lits2.
Proof.
  intros HR Hclass Hlits1 Hlits2 Hvalue.
  assert (Hin : 0 < length value) by (destruct value; [done|simpl; lia]).
  set (first := lits1 ++ k :: lits2).
  replace (lits1 ++ k :: lits2 ++ k :: rest) with (first ++ k :: rest)
    by (unfold first; by rewrite <- app_assoc).
  destruct (for_loop_normal value first 0 (mkVars [] 0 rules)) as (exit1 & st1 & Hrun1).
  destruct (for_loop_rendering value first 0 (mkVars [] 0 rules) exit1 st1)
    as (added & Hout & Hlen & _); [done..|].
  simpl in Hout.
  assert (Hfirst : length (maskedValue st1) ≤ length lits1 + 1 + length lits2).
  { rewrite Hout. unfold first in Hlen. rewrite length_app in Hlen. simpl in Hlen. lia. }
  assert (Hrun : ∃ exit st, run value (first ++ k :: rest) rules = Normal (exit, st) ∧
                            maskedValue st = maskedValue st1).
  { unfold run. rewrite for_loop_app, Hrun1. simpl.
    destruct exit1; [by eauto..|].
    destruct (for_loop_arms_global_class value lits1 lits2 k R (mkVars [] 0 rules) st1)
      as [Harmed Hin1]; [done..|].
    destruct (lookup_lt_is_Some_2 value (rawIndex st1) Hin1) as [c Hc].
    simpl. rewrite (iteration_slot _ _ (RegExp.set_lastIndex 1 R)) by done. simpl.
    unfold at_index. rewrite Hc, (test_global_class_again R c Hclass). simpl.
    by eauto. }
  destruct Hrun as (exit & st & Hrun & Hsame).
  exists (maskedValue st1). split; [by rewrite (masked_run _ _ _ _ _ Hrun), Hsame|done].
Qed.

Lemma global_rule_keeps_one_character_witness :
  ∃ out, masked (js "01012024") ([] ++ 57%N :: [] ++ 57%N :: js "/99/9999") readme_rules
           = Normal out ∧
         length out ≤ 0 + 1 + 0.
Proof.
  apply (global_rule_keeps_one_character (js "01012024") [] [] 57%N (js "/99/9999")
           readme_rules (RegExp.literal RegExp.digit RegExp.g)).
  - reflexivity.
  - split_and!; [by eexists|reflexivity..].
  - constructor.
  - constructor.
  - vm_compute. discriminate.
Defined.

(** ** From [prepare] to the first event *)

(** With rules without flags and a mask that does not start with a slot
    whose rule matches the string ["undefined"], the value that
    [prepare] computes from any default leaves the rules as they are,
    and an event in strict mode that brings this value back unchanged
    changes nothing. *)
Theorem prepared_value_is_stable defaultvalue mask rules :
  flagless rules →
  ¬ absent_accepted [] mask rules →
  ∃ out, prepare defaultvalue mask rules = Normal (out, rules) ∧
         oninput false mask None (mkComponent out out out rules)
           = Normal (mkComponent out out out rules).
Proof.
  intros Hflagless Hdefect.
  pose proof (flagless_stateless _ Hflagless) as Hstateless.
  unfold prepare.
  set (value := match defaultvalue with Some (c :: v) => c :: v | _ => [] end).
  destruct (for_loop_normal value mask 0 (mkVars [] 0 rules)) as (exit & st & Hrun).
  pose proof (for_loop_stateless value mask 0 (mkVars [] 0 rules) exit st Hstateless Hrun)
    as Hobjects.
  pose proof (masked_run value mask rules exit st Hrun) as Hout.
  pose proof (applyMask_idempotent _ _ _ _ Hstateless Hdefect Hout) as Hfixed.
  exists (maskedValue st). split.
  - unfold applyMask, run. rewrite Hrun. simpl. unfold returned. by rewrite Hobjects.
  - pose proof (fixed_point_passes_gate _ _ _ Hflagless Hfixed) as Hgate.
    destruct (for_loop_normal (maskedValue st) mask 0 (mkVars [] 0 rules))
      as (exit' & st' & Hrun').
    pose proof (for_loop_stateless (maskedValue st) mask 0 (mkVars [] 0 rules) exit' st'
                  Hstateless Hrun') as Hobjects'.
    rewrite (masked_run _ _ _ _ _ Hrun') in Hfixed. injection Hfixed as Hfixed.
    apply (oninput_accepted false mask
             (mkComponent (maskedValue st) (maskedValue st) (maskedValue st) rules));
      [by right|].
    simpl. unfold applyMask, run. rewrite Hrun'. simpl. unfold returned.
    by rewrite Hfixed, Hobjects'.
Qed.

Lemma prepared_value_is_stable_witness :
  ∃ out, prepare (Some (js "0101")) (js "99/99/9999") date_rules = Normal (out, date_rules) ∧
         oninput false (js "99/99/9999") None (mkComponent out out out date_rules)
           = Normal (mkComponent out out out date_rules).
Proof.
  apply (prepared_value_is_stable (Some (js "0101")) (js "99/99/9999") date_rules).
  - intros char R HR. unfold date_rules in HR.
    apply lookup_singleton_Some in HR as [_ <-]. reflexivity.
  - intros [_ (maskChar & rest & R & Hmask & HR & Htest)].
    injection Hmask as <- <-. vm_compute in HR. injection HR as <-.
    vm_compute in Htest. discriminate.
Defined.
